(** * Twilio flow tooling: state extraction, Mermaid rendering, section update

    A shallow embedding of [tools/twilio/mermaid]:

    - [utils.get_first_state]                       (module [Utils])
    - [output_states.get_states_by_trigger_type]    (module [OutputStates])
    - [mermaid.generate_mermaid_graph]              (module [Mermaid])
    - [update_doc.update_mermaid_graph]             (module [UpdateDoc])

    Python dictionaries decoded from the flow JSON are records whose
    fields are [option]s: [None] stands for an absent key, so that
    [d['k']] (raises [KeyError]) and [d.get('k')] (yields [None]) can be
    told apart.  Exceptions are explicit results; text printed on the
    standard output is returned next to the result. *)

From Stdlib Require Import ZArith Ascii String List.
From stdpp Require Import base option strings list gmap pretty relations.

Local Open Scope string_scope.
Local Open Scope list_scope.
Local Open Scope nat_scope.

(** ** Python values and exceptions *)

Inductive exn : Type :=
  | KeyError (key : string)
  | FileNotFoundError (path : string)
  | JSONDecodeError (details : string)
  | ReError.

(** The result of running a function of the program.  [OutOfFuel] is not
    a Python outcome: it is what a fuelled traversal of the model answers
    when its fuel is spent. *)
Inductive outcome (A : Type) : Type :=
  | Return (a : A)
  | Raise (e : exn)
  | OutOfFuel.
Arguments Return {A} a.
Arguments Raise {A} e.
Arguments OutOfFuel {A}.

Definition outcome_bind {A B} (f : A → outcome B) (m : outcome A) : outcome B :=
  match m with
  | Return a => f a
  | Raise e => Raise e
  | OutOfFuel => OutOfFuel
  end.

#[global] Instance outcome_ret : MRet outcome := @Return.
#[global] Instance outcome_mbind : MBind outcome := @outcome_bind.

(** [str(x)] for a value that is a string or [None]. *)
Definition py_str (o : option string) : string :=
  match o with
  | Some s => s
  | None => "None"
  end.

(** [if x:] for a value that is a string or [None]: the value when it is
    a non-empty string. *)
Definition truthy (o : option string) : option string :=
  match o with
  | Some s => if bool_decide (s = "") then None else Some s
  | None => None
  end.

(** ** The flow definition (section 3 of the specification) *)

Record Condition : Type := {
  cond_friendly_name : option string
}.

Record Transition : Type := {
  tr_event : option string;
  tr_next : option string;
  tr_conditions : option (list Condition)
}.

Record State : Type := {
  st_name : option string;
  st_type : option string;
  st_transitions : option (list Transition)
}.

Record FlowDefinition : Type := {
  fd_states : option (list State)
}.

(** [state.get('transitions', [])] *)
Definition get_transitions (state : State) : list Transition :=
  default [] (st_transitions state).

(** [flow_definition['states']] *)
Definition get_states (flow_definition : FlowDefinition) : outcome (list State) :=
  match fd_states flow_definition with
  | Some states => Return states
  | None => Raise (KeyError "states")
  end.

(** [{state['name']: state for state in states}]: a later state replaces
    an earlier one of the same name. *)
Fixpoint build_state_map (states : list State) (acc : gmap string State)
    : outcome (gmap string State) :=
  match states with
  | [] => Return acc
  | state :: rest =>
      match st_name state with
      | Some name => build_state_map rest (<[name := state]> acc)
      | None => Raise (KeyError "name")
      end
  end.

(** ** trigger_type.py *)

Inductive TriggerType : Type :=
  | INCOMING_MESSAGE
  | INCOMING_CALL
  | REST_API
  | SUBFLOW.

Definition value (t : TriggerType) : string :=
  match t with
  | INCOMING_MESSAGE => "incomingMessage"
  | INCOMING_CALL => "incomingCall"
  | REST_API => "incomingRequest"
  | SUBFLOW => "incomingParent"
  end.

(** ** utils.py *)

Module Utils.

(** [{"transitions": {}}]: iterating the empty dictionary yields no
    transition. *)
Definition default_trigger_state : State :=
  {| st_name := None; st_type := None; st_transitions := Some [] |}.

(** The first loop of [get_first_state]: [state['type']] is read for
    every state met before the [break]. *)
Fixpoint find_trigger_state (states : list State) (trigger_state : State)
    : outcome State :=
  match states with
  | [] => Return trigger_state
  | state :: rest =>
      match st_type state with
      | None => Raise (KeyError "type")
      | Some ty =>
          if bool_decide (ty = "trigger") then Return state
          else find_trigger_state rest trigger_state
      end
  end.

(** The second loop of [get_first_state]. *)
Fixpoint find_first_state (trigger_type : TriggerType)
    (transitions : list Transition) (first_state : option string)
    : option string :=
  match transitions with
  | [] => first_state
  | transition :: rest =>
      let event := tr_event transition in
      let next_state := tr_next transition in
      if bool_decide (event = Some (value trigger_type)) then next_state
      else find_first_state trigger_type rest first_state
  end.

Definition get_first_state (flow_definition : FlowDefinition)
    (trigger_type : TriggerType) : outcome (option string) :=
  states ← get_states flow_definition;
  trigger_state ← find_trigger_state states default_trigger_state;
  mret (find_first_state trigger_type (get_transitions trigger_state) None).

Section Files.
(** The files that can be opened for reading, with their text, and
    [json.load] on such a text (see [Mermaid.load_friendly_states]). *)
Variable files : gmap string string.
Variable json_loads : string → string + gmap string string.

(** The result is the text printed and the value returned. *)
Definition load_json_object (file_path : string)
    : list string * option (gmap string string) :=
  match files !! file_path with
  | None => (["Error: The file '" +:+ file_path +:+ "' was not found."], None)
  | Some text =>
      match json_loads text with
      | inr data => ([], Some data)
      | inl e =>
          (["Error: The file '" +:+ file_path
              +:+ "' contains invalid JSON. Details: " +:+ e], None)
      end
  end.
End Files.

(** Entry resolution as section 4.2 of the specification words it. *)
Definition is_trigger (state : State) : bool :=
  bool_decide (st_type state = Some "trigger").

Definition resolve_entry (states : list State) (trigger_kind : TriggerType)
    : option string :=
  let trigger := default default_trigger_state (List.find is_trigger states) in
  match List.find (λ t, bool_decide (tr_event t = Some (value trigger_kind)))
                  (get_transitions trigger) with
  | Some t => tr_next t
  | None => None
  end.

End Utils.

(** ** output_states.py *)

Module OutputStates.

(** [all_states] is a dictionary and keeps its insertion order: an
    association list.  [calls] is a ghost field, absent from the
    program: the names for which the body of [traverse_state] ran past
    its guard, in order. *)
Record Walk : Type := {
  all_states : list (string * string);
  calls : list string
}.

(** [k in d] *)
Definition dict_contains (k : string) (d : list (string * string)) : bool :=
  bool_decide (k ∈ d.*1).

(** [d[k] = v] *)
Fixpoint dict_set (k v : string) (d : list (string * string))
    : list (string * string) :=
  match d with
  | [] => [(k, v)]
  | (k', v') :: rest =>
      if bool_decide (k = k') then (k, v) :: rest
      else (k', v') :: dict_set k v rest
  end.

Section Traverse.
Variable state_map : gmap string State.

(** The loop over [state.get('transitions', [])]. *)
Fixpoint traverse_transitions (traverse_state : string → Walk → option Walk)
    (transitions : list Transition) (w : Walk) : option Walk :=
  match transitions with
  | [] => Some w
  | transition :: rest =>
      match truthy (tr_next transition) with
      | Some next_state =>
          w' ← traverse_state next_state w;
          traverse_transitions traverse_state rest w'
      | None => traverse_transitions traverse_state rest w
      end
  end.

Fixpoint traverse_state (fuel : nat) (state_name : string) (w : Walk)
    : option Walk :=
  match fuel with
  | O => None
  | S fuel =>
      if dict_contains state_name (all_states w) then Some w
      else match state_map !! state_name with
           | None => Some w
           | Some state =>
               let w := {| all_states := dict_set state_name state_name (all_states w);
                           calls := calls w ++ [state_name] |} in
               traverse_transitions (traverse_state fuel)
                                    (get_transitions state) w
           end
  end.
End Traverse.

(** The result is the text printed and the value returned. *)
Definition get_states_by_trigger_type (flow_definition : FlowDefinition)
    (trigger_type : TriggerType)
    : list string * outcome (list (string * string)) :=
  let all_states : list (string * string) := [] in
  match fd_states flow_definition with
  | None => (["Invalid flow definition: 'states' key not found."], Return all_states)
  | Some states =>
      match Utils.get_first_state flow_definition trigger_type with
      | Return initial_state =>
          match truthy initial_state with
          | None =>
              (["No states found for trigger type '" +:+ value trigger_type +:+ "'."],
               Return all_states)
          | Some initial_state =>
              match build_state_map states ∅ with
              | Return state_map =>
                  match traverse_state state_map (S (size state_map)) initial_state
                          {| all_states := all_states; calls := [] |} with
                  | Some w => ([], Return (OutputStates.all_states w))
                  | None => ([], OutOfFuel)
                  end
              | Raise e => ([], Raise e)
              | OutOfFuel => ([], OutOfFuel)
              end
          end
      | Raise e => ([], Raise e)
      | OutOfFuel => ([], OutOfFuel)
      end
  end.

End OutputStates.

(** ** mermaid.py *)

Module Mermaid.

(** The variables the nested [traverse_state] closes over and mutates.
    [calls] is a ghost field, as in [OutputStates.Walk]. *)
Record Walk : Type := {
  visited_states : gset string;
  graph_parts : list string;
  link_index : Z;
  calls : list string
}.

(** [graph_parts.append(line)] *)
Definition append (line : string) (w : Walk) : Walk :=
  {| visited_states := visited_states w;
     graph_parts := graph_parts w ++ [line];
     link_index := link_index w;
     calls := calls w |}.

(** [link_index[0] += 1] *)
Definition next_link (w : Walk) : Walk :=
  {| visited_states := visited_states w;
     graph_parts := graph_parts w;
     link_index := (link_index w + 1)%Z;
     calls := calls w |}.

(** [visited_states.add(state_name)] *)
Definition mark (state_name : string) (w : Walk) : Walk :=
  {| visited_states := {[ state_name ]} ∪ visited_states w;
     graph_parts := graph_parts w;
     link_index := link_index w;
     calls := calls w ++ [state_name] |}.

(** The body of [if next_state:] up to the recursive call. *)
Definition emit_edge (state_name : string) (transition : Transition)
    (next_state : string) (w : Walk) : Walk :=
  let w := next_link w in
  match tr_conditions transition with
  | Some (c :: _) =>
      let condition := py_str (cond_friendly_name c) in
      append ("    " +:+ state_name +:+ " --> |" +:+ condition +:+ "| " +:+ next_state) w
  | _ =>
      let event := tr_event transition in
      let w :=
        if bool_decide (event ≠ Some "next")
        then append ("    " +:+ state_name +:+ " --> |" +:+ py_str event +:+ "| " +:+ next_state) w
        else append ("    " +:+ state_name +:+ " --> " +:+ next_state) w in
      if bool_decide (event = Some "failed" ∨ event = Some "timeout")
      then append ("    linkStyle " +:+ pretty (link_index w) +:+ " stroke:red") w
      else w
  end.

Section Traverse.
Variable state_map : gmap string State.
Variable friendly_states : gmap string string.

(** The node declaration of a state that is visited. *)
Definition emit_node (state_name : string) (state : State) (w : Walk) : Walk :=
  let friendly_name := default state_name (friendly_states !! state_name) in
  if bool_decide (st_type state = Some "split-based-on")
  then append ("    " +:+ state_name +:+ "{" +:+ friendly_name +:+ "}") w
  else append ("    " +:+ state_name +:+ "(" +:+ friendly_name +:+ ")") w.

Fixpoint traverse_transitions (traverse_state : string → Walk → option Walk)
    (state_name : string) (transitions : list Transition) (w : Walk)
    : option Walk :=
  match transitions with
  | [] => Some w
  | transition :: rest =>
      match truthy (tr_next transition) with
      | Some next_state =>
          w' ← traverse_state next_state
                 (emit_edge state_name transition next_state w);
          traverse_transitions traverse_state state_name rest w'
      | None => traverse_transitions traverse_state state_name rest w
      end
  end.

Fixpoint traverse_state (fuel : nat) (state_name : string) (w : Walk)
    : option Walk :=
  match fuel with
  | O => None
  | S fuel =>
      if bool_decide (state_name ∈ visited_states w) then Some w
      else match state_map !! state_name with
           | None => Some w
           | Some state =>
               traverse_transitions (traverse_state fuel) state_name
                 (get_transitions state)
                 (emit_node state_name state (mark state_name w))
           end
  end.
End Traverse.

Section Files.
(** The files that can be opened for reading, with their text, and
    [json.load] on such a text: the details of the error when the text
    is not valid JSON, else the object it decodes to (identifier to
    label). *)
Variable files : gmap string string.
Variable json_loads : string → string + gmap string string.

Definition load_friendly_states (states_file : option string)
    : outcome (gmap string string) :=
  match truthy states_file with
  | None => Return ∅
  | Some path =>
      match files !! path with
      | None => Raise (FileNotFoundError path)
      | Some text =>
          match json_loads text with
          | inl details => Raise (JSONDecodeError details)
          | inr friendly_states => Return friendly_states
          end
      end
  end.

(** [initial_state] is a state name or [None]; [None] is a key of no
    state map, so the first call returns at its guard. *)
Definition generate_mermaid_graph (initial_state : option string)
    (flow_definition : FlowDefinition) (states_file : option string)
    : outcome (list string) :=
  friendly_states ← load_friendly_states states_file;
  let w := {| visited_states := ∅;
              graph_parts := ["```mermaid"; "flowchart TD"];
              link_index := (-1)%Z;
              calls := [] |} in
  states ← get_states flow_definition;
  state_map ← build_state_map states ∅;
  match match initial_state with
        | Some state_name =>
            traverse_state state_map friendly_states (S (size state_map))
                           state_name w
        | None => Some w
        end with
  | Some w => Return (graph_parts (append "```" w))
  | None => OutOfFuel
  end.
End Files.

End Mermaid.

(** ** The part of Python's [re] that update_doc.py uses

    Text is a list of one-byte characters.  A pattern is a sequence of
    the three constructs the program's pattern is made of; matching is
    by backtracking, in the order in which [re] tries the alternatives. *)

Module Re.

Abbreviation text := (list ascii).

Definition backslash : ascii := "092"%char.

(** [\s] on the ASCII range: tab to carriage return, the four
    separators, the blank. *)
Definition is_space (c : ascii) : bool :=
  let n := nat_of_ascii c in
  (((9 <=? n) && (n <=? 13)) || ((28 <=? n) && (n <=? 32)))%nat.

Inductive node : Type :=
  | Literal (s : text)     (* [re.escape(s)]: the text itself *)
  | SpaceStar              (* [\s*], greedy *)
  | LazyGroup.             (* [(.*?)] under [re.DOTALL], capturing *)

(** The text left once [p] is taken from the front of [s]. *)
Fixpoint strip_prefix (p s : text) : option text :=
  match p, s with
  | [], _ => Some s
  | a :: p', b :: s' => if bool_decide (a = b) then strip_prefix p' s' else None
  | _ :: _, [] => None
  end.

(** A match: the captured groups and the text that follows it. *)
Abbreviation found := (list text * text)%type.

(** Greedy: as many blanks as possible first, then fewer. *)
Fixpoint space_star (k : text → option found) (s : text) : option found :=
  match s with
  | c :: s' =>
      if is_space c
      then match space_star k s' with
           | Some r => Some r
           | None => k s
           end
      else k s
  | [] => k []
  end.

(** Lazy: as few characters as possible first, then more. *)
Fixpoint lazy_group (k : text → option found) (acc : text) (s : text)
    : option found :=
  match k s with
  | Some (groups, rest) => Some (rev acc :: groups, rest)
  | None =>
      match s with
      | c :: s' => lazy_group k (c :: acc) s'
      | [] => None
      end
  end.

(** [pattern.match] at the front of [s]. *)
Fixpoint match_here (p : list node) (s : text) : option found :=
  match p with
  | [] => Some ([], s)
  | Literal l :: p' =>
      match strip_prefix l s with
      | Some s' => match_here p' s'
      | None => None
      end
  | SpaceStar :: p' => space_star (match_here p') s
  | LazyGroup :: p' => lazy_group (match_here p') [] s
  end.

(** A compiled replacement: from the matched text and its groups to the
    text put in its place. *)
Abbreviation filter := (text → list text → text).

(** The scan of [re.sub] with no [count]: every match, left to right,
    is replaced and the scan goes on after it.  The pattern of this
    program begins with a non-empty literal, so a match is never empty;
    [fuel] bounds the number of steps. *)
Fixpoint sub_loop (fuel : nat) (p : list node) (f : filter) (s : text)
    : option text :=
  match fuel with
  | O => None
  | S fuel =>
      match match_here p s with
      | Some (groups, rest) =>
          let matched := take (length s - length rest) s in
          tail ← sub_loop fuel p f rest;
          Some (f matched groups ++ tail)
      | None =>
          match s with
          | [] => Some []
          | c :: s' => tail ← sub_loop fuel p f s'; Some (c :: tail)
          end
      end
  end.

Section Sub.
(** [re._subx]: the template compiler of the library, called for a
    replacement that holds a backslash; [None] when it raises
    [re.error]. *)
Variable subx : text → option filter.

(** A replacement without a backslash stands for itself; any other is
    handed to the template compiler before the scan begins. *)
Definition compile_template (repl : text) : option filter :=
  if bool_decide (backslash ∈ repl) then subx repl
  else Some (λ _ _, repl).

Definition sub (p : list node) (repl : text) (s : text) : outcome text :=
  match compile_template repl with
  | None => Raise ReError
  | Some f =>
      match sub_loop (S (length s)) p f s with
      | Some r => Return r
      | None => OutOfFuel
      end
  end.
End Sub.

End Re.

(** ** update_doc.py *)

Module UpdateDoc.
Import Re.

Definition lit (s : string) : text := list_ascii_of_string s.

Definition newline : ascii := "010"%char.

Definition start_tag (section_identifier : text) : text :=
  lit "<!-- " ++ section_identifier ++ lit "-start -->".

Definition end_tag (section_identifier : text) : text :=
  lit "<!-- " ++ section_identifier ++ lit "-end -->".

Definition regex_pattern (section_identifier : text) : list node :=
  [Literal (start_tag section_identifier); SpaceStar; LazyGroup; SpaceStar;
   Literal (end_tag section_identifier)].

Definition replacement (new_graph section_identifier : text) : text :=
  start_tag section_identifier ++ [newline] ++ new_graph ++ [newline]
    ++ end_tag section_identifier.

Definition carriage_return : ascii := "013"%char.

(** Reading in text mode, as [open(filename, 'r')] does: a carriage
    return, with the line feed that follows it if there is one, is read
    as one line feed. *)
Fixpoint universal_newlines (stored : text) : text :=
  match stored with
  | [] => []
  | c :: rest =>
      if bool_decide (c = carriage_return)
      then newline ::
           match rest with
           | d :: rest' =>
               if bool_decide (d = newline) then universal_newlines rest'
               else universal_newlines rest
           | [] => []
           end
      else c :: universal_newlines rest
  end.

(** Writing in text mode, as [open(filename, 'w')] does: every line feed
    is written as [os.linesep]. *)
Fixpoint write_newlines (linesep : text) (content : text) : text :=
  match content with
  | [] => []
  | c :: rest =>
      (if bool_decide (c = newline) then linesep else [c])
        ++ write_newlines linesep rest
  end.

Section Files.
Variable subx : text → option filter.
(** [os.linesep]: the line feed, or carriage return and line feed. *)
Variable linesep : text.

(** The files and the characters they store before the call; the result
    is the files after it, the text printed, and how the call ends.  Only
    [FileNotFoundError] is caught. *)
Definition update_mermaid_graph (files : gmap string text)
    (filename : string) (new_graph section_identifier : text)
    : gmap string text * list string * outcome unit :=
  match files !! filename with
  | None =>
      (files, ["Error: File '" +:+ filename +:+ "' not found."], Return ())
  | Some stored =>
      let content := universal_newlines stored in
      match sub subx (regex_pattern section_identifier)
                (replacement new_graph section_identifier) content with
      | Return updated_content =>
          (<[filename := write_newlines linesep updated_content]> files, [],
           Return ())
      | Raise e => (files, [], Raise e)
      | OutOfFuel => (files, [], OutOfFuel)
      end
  end.
End Files.

(** *** The section update in words

    [occurs_last needle pre]: in [pre ++ needle], the needle occurs at
    the end and nowhere before. *)
Definition occurs_last (needle pre : text) : Prop :=
  ∀ a b, a ++ needle ++ b = pre ++ needle → b = [].

(** [has_pair s e doc]: a start marker with an end marker after it. *)
Definition has_pair (s e doc : text) : Prop :=
  ∃ pre mid post, doc = pre ++ s ++ mid ++ e ++ post.

(** Every region from a start marker to the next end marker after it,
    taken left to right, is replaced by [repl]; the rest is kept. *)
Inductive replaced (s e repl : text) : text → text → Prop :=
  | replaced_none doc :
      ¬ has_pair s e doc →
      replaced s e repl doc doc
  | replaced_pair pre mid post out :
      occurs_last s pre →
      occurs_last e mid →
      replaced s e repl post out →
      replaced s e repl (pre ++ s ++ mid ++ e ++ post) (pre ++ repl ++ out).

(** The text before the first occurrence of [needle] in [s], and the
    text after it. *)
Fixpoint find_first (needle s : text) : option (text * text) :=
  match strip_prefix needle s with
  | Some rest => Some ([], rest)
  | None =>
      match s with
      | [] => None
      | c :: s' =>
          match find_first needle s' with
          | Some (before, rest) => Some (c :: before, rest)
          | None => None
          end
      end
  end.



End UpdateDoc.

(** ** Depth-first search with a visited set

    The scheme both traversals follow: [succs n] is [None] for a name
    that is no state, else the names the state's transitions lead to. *)

Module Dfs.

Section Dfs.
Variable succs : string → option (list string).

Abbreviation st := (gset string * list string)%type.

Fixpoint visit_all (visit : string → st → option st) (ns : list string)
    (a : st) : option st :=
  match ns with
  | [] => Some a
  | n :: rest => a' ← visit n a; visit_all visit rest a'
  end.

Fixpoint visit (fuel : nat) (n : string) (a : st) : option st :=
  match fuel with
  | O => None
  | S fuel =>
      if bool_decide (n ∈ a.1) then Some a
      else match succs n with
           | None => Some a
           | Some ns => visit_all (visit fuel) ns ({[ n ]} ∪ a.1, a.2 ++ [n])
           end
  end.

(** One transition between states, and what can be reached from an
    entry that is a state. *)
Definition edge (a b : string) : Prop :=
  ∃ ns, succs a = Some ns ∧ b ∈ ns ∧ is_Some (succs b).

Definition reachable (entry x : string) : Prop :=
  is_Some (succs entry) ∧ rtc edge entry x.

(** What a run adds to the visited set and to the log: names that were
    not visited, each once, all coming from [origin], and with all their
    successors visited in the end. *)
Record grows (origin : string → Prop) (a a' : st) (new : list string)
    : Prop := {
  grows_set : a'.1 = a.1 ∪ list_to_set new;
  grows_log : a'.2 = a.2 ++ new;
  grows_nodup : NoDup new;
  grows_fresh : ∀ x, x ∈ new → x ∉ a.1;
  grows_origin : ∀ x, x ∈ new → origin x;
  grows_closed : ∀ x y, x ∈ new → edge x y → y ∈ a'.1
}.

(** The number of states of [universe] that are not visited yet. *)
Definition todo (universe : gset string) (a : st) : nat :=
  size (universe ∖ a.1).
End Dfs.

End Dfs.

(** The names a state's transitions lead to: the [next] values that pass
    [if next_state:]. *)
Definition targets (state : State) : list string :=
  omap (λ t, truthy (tr_next t)) (get_transitions state).

Definition succs_of (state_map : gmap string State) (n : string)
    : option (list string) :=
  targets <$> state_map !! n.

(** What the scheme sees of each traversal: the visited names and the
    log of calls. *)
Definition extract_view (w : OutputStates.Walk) : gset string * list string :=
  (list_to_set (OutputStates.all_states w).*1, OutputStates.calls w).

Definition render_view (w : Mermaid.Walk) : gset string * list string :=
  (Mermaid.visited_states w, Mermaid.calls w).

(** The dictionary that maps each of the names to itself, in order. *)
Definition self_map (names : list string) : list (string * string) :=
  (λ x, (x, x)) <$> names.

(** ** The rendering rules in words (section 4.4 of the specification) *)

Definition labelled_edge (source label target : string) : string :=
  "    " +:+ source +:+ " --> |" +:+ label +:+ "| " +:+ target.

Definition plain_edge (source target : string) : string :=
  "    " +:+ source +:+ " --> " +:+ target.

Definition red_link (index : Z) : string :=
  "    linkStyle " +:+ pretty index +:+ " stroke:red".

Definition no_condition (t : Transition) : Prop :=
  tr_conditions t = None ∨ tr_conditions t = Some [].

Definition failure_event (t : Transition) : Prop :=
  tr_event t = Some "failed" ∨ tr_event t = Some "timeout".

(** Every edge whose event is a failure event is followed by its red
    styling line, whatever its label. *)
Definition styles_every_failure_edge : Prop :=
  ∀ source t target w,
    failure_event t →
    ∃ line,
      Mermaid.graph_parts (Mermaid.emit_edge source t target w) =
      Mermaid.graph_parts w ++ [line; red_link (Mermaid.link_index w + 1)].

(** ** Sample flows *)

Module Samples.

Definition transition (event : string) (next : string) : Transition :=
  {| tr_event := Some event; tr_next := Some next; tr_conditions := None |}.

Definition state (name type : string) (transitions : list Transition) : State :=
  {| st_name := Some name; st_type := Some type;
     st_transitions := Some transitions |}.

(** Scenario 7 of section 8 of the specification. *)
Definition call_flow : FlowDefinition :=
  {| fd_states := Some [
       state "Trigger" "trigger"
         [transition "incomingMessage" "M"; transition "incomingCall" "A"];
       state "A" "say-play" [transition "next" "B"];
       state "B" "split-based-on"
         [{| tr_event := Some "match"; tr_next := Some "C";
             tr_conditions := Some [{| cond_friendly_name := Some "Yes" |}] |};
          transition "failed" "A"];
       state "C" "say-play" []
     ] |}.

(** A failure transition that carries a condition. *)
Definition failed_with_condition : Transition :=
  {| tr_event := Some "failed"; tr_next := Some "B";
     tr_conditions := Some [{| cond_friendly_name := Some "No answer" |}] |}.

Definition guarded_flow : FlowDefinition :=
  {| fd_states := Some [
       state "A" "make-outgoing-call-v2" [failed_with_condition];
       state "B" "say-play" []
     ] |}.

(** A state without a type ahead of the trigger. *)
Definition untyped_flow : FlowDefinition :=
  {| fd_states := Some [
       {| st_name := Some "A"; st_type := None; st_transitions := None |};
       state "Trigger" "trigger" [transition "incomingCall" "A"]
     ] |}.





(** A [json.load] that accepts the empty object only. *)
Definition loads_empty_object (text : string) : string + gmap string string :=
  if bool_decide (text = "{}") then inr ∅ else inl "Expecting value".

End Samples.

(** ** The size of a rendering

    What one transition and one state add to [graph_parts] and to
    [link_index], read off [Mermaid.emit_edge] and [Mermaid.emit_node]. *)

Definition transition_lines (t : Transition) : nat :=
  match truthy (tr_next t) with
  | None => 0
  | Some _ =>
      match tr_conditions t with
      | Some (_ :: _) => 1
      | _ =>
          if bool_decide (tr_event t = Some "failed" ∨ tr_event t = Some "timeout")
          then 2 else 1
      end
  end.

Definition state_lines (state : State) : nat :=
  S (sum_list_with transition_lines (get_transitions state)).

Definition state_links (state : State) : nat := length (targets state).

(** The total of [f] over the states that [names] name. *)
Definition total (state_map : gmap string State) (f : State → nat)
    (names : list string) : nat :=
  sum_list_with (λ n, from_option f 0 (state_map !! n)) names.

(** What a run of the rendering traversal adds: [links] links and
    [lines] lines of its own, and the links and lines of the states it
    calls. *)
Definition render_adds (state_map : gmap string State) (links lines : nat)
    (w w' : Mermaid.Walk) : Prop :=
  ∃ new,
    Mermaid.calls w' = Mermaid.calls w ++ new ∧
    Mermaid.link_index w' =
      (Mermaid.link_index w
       + Z.of_nat (links + total state_map state_links new))%Z ∧
    length (Mermaid.graph_parts w') =
      length (Mermaid.graph_parts w) + lines
      + total state_map state_lines new.

(** ** The lines of a state, in the words of section 4.4

    The node line of a state and the edge line of each of its transitions
    that has a target. *)

Definition node_line (friendly_states : gmap string string)
    (state_name : string) (state : State) : string :=
  let label := default state_name (friendly_states !! state_name) in
  if bool_decide (st_type state = Some "split-based-on")
  then "    " +:+ state_name +:+ "{" +:+ label +:+ "}"
  else "    " +:+ state_name +:+ "(" +:+ label +:+ ")".

Definition edge_line (source : string) (t : Transition) (target : string)
    : string :=
  match tr_conditions t with
  | Some (c :: _) => labelled_edge source (py_str (cond_friendly_name c)) target
  | _ =>
      if bool_decide (tr_event t = Some "next") then plain_edge source target
      else labelled_edge source (py_str (tr_event t)) target
  end.

Definition transition_drawing (source : string) (transitions : list Transition)
    : list string :=
  omap (λ t, edge_line source t <$> truthy (tr_next t)) transitions.

Definition state_drawing (friendly_states : gmap string string)
    (state_name : string) (state : State) : list string :=
  node_line friendly_states state_name state
    :: transition_drawing state_name (get_transitions state).

(** What a run of the rendering traversal draws: the lines [own] and the
    drawing of every state it calls are among the lines it appends. *)
Definition render_draws (state_map : gmap string State)
    (friendly_states : gmap string string) (own : list string)
    (w w' : Mermaid.Walk) : Prop :=
  ∃ new added,
    Mermaid.calls w' = Mermaid.calls w ++ new ∧
    Mermaid.graph_parts w' = Mermaid.graph_parts w ++ added ∧
    (∀ l, l ∈ own → l ∈ added) ∧
    (∀ n state l, n ∈ new → state_map !! n = Some state →
                  l ∈ state_drawing friendly_states n state → l ∈ added).

(** ** utils.py: writing the output *)

Module UtilsOutput.

Definition newline : string := String "010" EmptyString.

(** [file.writelines(f"{line}\n" for line in output)] *)
Fixpoint writelines (output : list string) : string :=
  match output with
  | [] => ""
  | line :: rest => line +:+ newline +:+ writelines rest
  end.

Section Dump.
(** [json.dump(output, file, indent=4)] of a dictionary of strings: the
    text it writes. *)
Variable json_dumps : list (string * string) → string.

(** [output] is a dictionary or a list of lines.  The file is created or
    truncated; the result is the files after the call and the text
    printed. *)
Definition write_output_to_file (files : gmap string string)
    (output : list (string * string) + list string) (output_file : string)
    : gmap string string * list string :=
  let written :=
    match output with
    | inl d => json_dumps d
    | inr lines => writelines lines
    end in
  (<[output_file := written]> files,
   ["Output written to " +:+ output_file +:+ "."]).
End Dump.

End UtilsOutput.

(** ** index.py *)

Module Index.

(** The names of the members of [TriggerType]. *)
Definition name (t : TriggerType) : string :=
  match t with
  | INCOMING_MESSAGE => "INCOMING_MESSAGE"
  | INCOMING_CALL => "INCOMING_CALL"
  | REST_API => "REST_API"
  | SUBFLOW => "SUBFLOW"
  end.

Inductive Command : Type :=
  | GENERATE_STATES_FILE
  | UPDATE_GRAPH.

Definition command_name (c : Command) : string :=
  match c with
  | GENERATE_STATES_FILE => "GENERATE_STATES_FILE"
  | UPDATE_GRAPH => "UPDATE_GRAPH"
  end.

Definition command_value (c : Command) : string :=
  match c with
  | GENERATE_STATES_FILE => "generate_states_file"
  | UPDATE_GRAPH => "update_graph"
  end.

(** [s.upper()] on ASCII text: the letters a to z become A to Z. *)
Definition upper_char (c : ascii) : ascii :=
  let n := nat_of_ascii c in
  if ((97 <=? n) && (n <=? 122))%nat then ascii_of_nat (n - 32) else c.

Fixpoint upper (s : string) : string :=
  match s with
  | EmptyString => EmptyString
  | String c rest => String (upper_char c) (upper rest)
  end.

(** [TriggerType[key]] and [Command[key]]: the member of that name;
    [None] stands for [KeyError]. *)
Definition trigger_type_named (key : string) : option TriggerType :=
  List.find (λ t, bool_decide (name t = key))
            [INCOMING_MESSAGE; INCOMING_CALL; REST_API; SUBFLOW].

Definition command_named (key : string) : option Command :=
  List.find (λ c, bool_decide (command_name c = key))
            [GENERATE_STATES_FILE; UPDATE_GRAPH].

(** The result of an argparse [type] function. *)
Inductive converted (A : Type) : Type :=
  | Converted (a : A)
  | ArgumentTypeError (message : string).
Arguments Converted {A} a.
Arguments ArgumentTypeError {A} message.

Definition str_to_trigger_type (s : string) : converted TriggerType :=
  match trigger_type_named (upper s) with
  | Some t => Converted t
  | None =>
      ArgumentTypeError
        ("Invalid value: '" +:+ s +:+ "' is not a valid trigger type.")
  end.

Definition str_to_command (s : string) : converted Command :=
  match command_named (upper s) with
  | Some c => Converted c
  | None =>
      ArgumentTypeError ("Invalid command: '" +:+ s +:+ "' is not a valid command.")
  end.

(** What [client.studio.v2.flows(sid).fetch()] returns; [date_created]
    is the text [print] shows for it. *)
Record Flow : Type := {
  sid : string;
  friendly_name : string;
  status : string;
  date_created : string;
  definition : FlowDefinition
}.

(** The parsed arguments. *)
Record Args : Type := {
  cmd : Command;
  trigger_type : TriggerType;
  flow_sid : string;
  output_file : string;
  section_identifier : string;
  flow_state_file : string
}.

(** How [main] ends when it does not return: with an exception of the
    functions above, with the [TypeError] of an operation on [None], or
    with the [Exception] it raises itself. *)
Inductive stop : Type :=
  | Raised (e : exn)
  | TypeError
  | PlainException (message : string).

Inductive ended : Type :=
  | Returned
  | Stopped (reason : stop)
  | Diverged.

(** ['\n'.join(lines)] *)
Fixpoint join_lines (lines : list string) : string :=
  match lines with
  | [] => ""
  | [line] => line
  | line :: rest => line +:+ UtilsOutput.newline +:+ join_lines rest
  end.

Section Main.
(** The service, the libraries and the platform: the fetch of a flow
    ([inl] the text of the exception it raises), [json.load], [json.dump],
    the template compiler of [re] and [os.linesep]. *)
Variable fetch : string → string + Flow.
Variable json_loads : string → string + gmap string string.
Variable json_dumps : list (string * string) → string.
Variable subx : Re.text → option Re.filter.
Variable linesep : Re.text.

(** The result is the text printed and the value returned. *)
Definition load_twilio_flow (flow_sid : string)
    : list string * option FlowDefinition :=
  match fetch flow_sid with
  | inr flow =>
      (["Flow SID: " +:+ sid flow;
        "Flow Friendly Name: " +:+ friendly_name flow;
        "Flow Status: " +:+ status flow;
        "Flow Date Created: " +:+ date_created flow],
       Some (definition flow))
  | inl e => (["Error loading flow: " +:+ e], None)
  end.

Definition generate_states_file (args : Args) (files : gmap string string)
    (flow_definition : option FlowDefinition)
    : gmap string string * list string * ended :=
  if bool_decide (flow_state_file args = "")
  then (files, [],
        Stopped (PlainException
          "flow_state_file needs to be specified for generate_states_file cmd"))
  else
    match flow_definition with
    | None => (files, [], Stopped TypeError)
    | Some flow_definition =>
        match OutputStates.get_states_by_trigger_type flow_definition
                (trigger_type args) with
        | (printed, Return states) =>
            let '(files', written) :=
              UtilsOutput.write_output_to_file json_dumps files (inl states)
                (flow_state_file args) in
            (files', printed ++ written, Returned)
        | (printed, Raise e) => (files, printed, Stopped (Raised e))
        | (printed, OutOfFuel) => (files, printed, Diverged)
        end
    end.

(** The document is read and written as text of one-byte characters,
    in text mode. *)
Definition update_graph (args : Args) (files : gmap string string)
    (flow_definition : option FlowDefinition)
    : gmap string string * list string * ended :=
  if bool_decide (section_identifier args = "" ∨ output_file args = "")
  then (files, [],
        Stopped (PlainException
          "section_identifier and output_file cannot be empty for update_graph cmd"))
  else
    match flow_definition with
    | None => (files, [], Stopped TypeError)
    | Some flow_definition =>
        match Utils.get_first_state flow_definition (trigger_type args) with
        | Return first_state =>
            match Mermaid.generate_mermaid_graph files json_loads first_state
                    flow_definition (Some (flow_state_file args)) with
            | Return mermaid_graph =>
                let mermaid_graph := join_lines mermaid_graph in
                let '(documents, printed, result) :=
                  UpdateDoc.update_mermaid_graph subx linesep
                    (UpdateDoc.lit <$> files)
                    (output_file args) (UpdateDoc.lit mermaid_graph)
                    (UpdateDoc.lit (section_identifier args)) in
                (string_of_list_ascii <$> documents, mermaid_graph :: printed,
                 match result with
                 | Return _ => Returned
                 | Raise e => Stopped (Raised e)
                 | OutOfFuel => Diverged
                 end)
            | Raise e => (files, [], Stopped (Raised e))
            | OutOfFuel => (files, [], Diverged)
            end
        | Raise e => (files, [], Stopped (Raised e))
        | OutOfFuel => (files, [], Diverged)
        end
    end.

(** [main] from the parsed arguments on. *)
Definition main (args : Args) (files : gmap string string)
    : gmap string string * list string * ended :=
  let '(loaded, flow_definition) := load_twilio_flow (flow_sid args) in
  let '(files', printed, result) :=
    match cmd args with
    | GENERATE_STATES_FILE => generate_states_file args files flow_definition
    | UPDATE_GRAPH => update_graph args files flow_definition
    end in
  (files', loaded ++ printed, result).
End Main.

End Index.

(** ** More sample inputs *)

Module Cases.

(** Two states of the same name: the later one has the transition. *)
Definition shadowed_states : list State :=
  [Samples.state "A" "say-play" [];
   Samples.state "B" "say-play" [];
   Samples.state "A" "say-play" [Samples.transition "next" "B"]].

(** A flow whose trigger is followed by a state that has no type and no
    name. *)
Definition flow_with_stray_state : FlowDefinition :=
  {| fd_states := Some [
       Samples.state "Trigger" "trigger" [Samples.transition "incomingCall" "A"];
       Samples.state "A" "say-play" [];
       {| st_name := None; st_type := None; st_transitions := None |}
     ] |}.



(** A [json.load] that knows one states file. *)
Definition loads_states_file (text : string) : string + gmap string string :=
  if bool_decide (text = "{A: A}") then inr {[ "A" := "A" ]}
  else inl "Expecting value".

(** A [json.dump] for the empty dictionary and a placeholder for the
    others. *)
Definition dumps_sample (d : list (string * string)) : string :=
  match d with
  | [] => "{}"
  | _ => "{...}"
  end.






(** A template compiler that raises [re.error], as the library's does for
    a template that holds [bad_escape]. *)
Definition refuses (template : Re.text) : option Re.filter := None.

(** The state map of [Samples.call_flow]. *)
Definition call_states : list State :=
  default [] (fd_states Samples.call_flow).

Definition call_state_map : gmap string State :=
  match build_state_map call_states ∅ with
  | Return state_map => state_map
  | _ => ∅
  end.

(** A states file that labels [A] with its own name. *)
Definition states_files : gmap string string := {[ "states.json" := "{A: A}" ]}.

Definition fetched_flow : Index.Flow :=
  {| Index.sid := "FW1"; Index.friendly_name := "Calls";
     Index.status := "published"; Index.date_created := "2024-01-01";
     Index.definition := Samples.call_flow |}.

Definition fetched_flow_without_trigger : Index.Flow :=
  {| Index.sid := "FW2"; Index.friendly_name := "Draft";
     Index.status := "draft"; Index.date_created := "2024-02-02";
     Index.definition :=
       {| fd_states := Some [Samples.state "A" "say-play" []] |} |}.

Definition fetch_sample (flow_sid : string) : string + Index.Flow :=
  if bool_decide (flow_sid = "FW1") then inr fetched_flow
  else if bool_decide (flow_sid = "FW2") then inr fetched_flow_without_trigger
  else inl "HTTP 404".

(** A document with one marked section, and an old states file. *)
Definition project_files : gmap string string :=
  {[ "README.md" := "Calls <!-- d-start -->old<!-- d-end --> end";
     "states.json" := "{A: A}" ]}.

Definition update_args (trigger_type : TriggerType) (flow_sid : string)
    : Index.Args :=
  {| Index.cmd := Index.UPDATE_GRAPH; Index.trigger_type := trigger_type;
     Index.flow_sid := flow_sid; Index.output_file := "README.md";
     Index.section_identifier := "d"; Index.flow_state_file := "" |}.

Definition states_args (flow_sid flow_state_file : string) : Index.Args :=
  {| Index.cmd := Index.GENERATE_STATES_FILE; Index.trigger_type := INCOMING_CALL;
     Index.flow_sid := flow_sid; Index.output_file := "";
     Index.section_identifier := ""; Index.flow_state_file := flow_state_file |}.

End Cases.

(** * Properties *)

Section UtilsFacts.
Import Utils.

Lemma find_trigger_state_typed states d :
  Forall (λ s, is_Some (st_type s)) states →
  find_trigger_state states d = Return (default d (List.find is_trigger states)).
Proof.
  induction 1 as [|s states [ty Hty] _ IH]; simpl; [done|].
  rewrite Hty. unfold is_trigger. rewrite Hty.
  destruct (decide (ty = "trigger")) as [->|Hne].
  - by rewrite !bool_decide_eq_true_2.
  - rewrite bool_decide_eq_false_2 by done.
    rewrite bool_decide_eq_false_2 by congruence. exact IH.
Qed.

Lemma find_trigger_state_return states d s :
  find_trigger_state states d = Return s →
  s = default d (List.find is_trigger states).
Proof.
  induction states as [|s0 states IH]; simpl.
  - by intros [= <-].
  - unfold is_trigger. destruct (st_type s0) as [ty|]; [|done].
    destruct (decide (ty = "trigger")) as [->|Hne].
    + rewrite !bool_decide_eq_true_2 by done. by intros [= <-].
    + rewrite bool_decide_eq_false_2 by done.
      rewrite bool_decide_eq_false_2 by congruence. exact IH.
Qed.

Lemma find_first_state_find tt ts :
  find_first_state tt ts None =
  match List.find (λ t, bool_decide (tr_event t = Some (value tt))) ts with
  | Some t => tr_next t
  | None => None
  end.
Proof.
  induction ts as [|t ts IH]; simpl; [done|].
  by destruct (bool_decide _).
Qed.

Lemma find_trigger_state_untyped pre s post d :
  Forall (λ s, is_Some (st_type s) ∧ st_type s ≠ Some "trigger") pre →
  st_type s = None →
  find_trigger_state (pre ++ s :: post) d = Raise (KeyError "type").
Proof.
  intros Hpre Hs. induction Hpre as [|p pre [[ty Hty] Hne] _ IH]; simpl.
  - by rewrite Hs.
  - rewrite Hty. rewrite bool_decide_eq_false_2 by congruence. exact IH.
Qed.

End UtilsFacts.

(** ** Depth-first search: termination, soundness, completeness *)

#[local] Set Warnings "-clear-no-such-hyp".

Section DfsFacts.
Import Dfs.

Variable succs : string → option (list string).
Variable universe : gset string.
Hypothesis universe_spec : ∀ n, n ∈ universe ↔ is_Some (succs n).

Abbreviation edge := (Dfs.edge succs).
Abbreviation reachable := (Dfs.reachable succs).
Abbreviation grows := (Dfs.grows succs).
Abbreviation todo := (Dfs.todo universe).

Lemma todo_mono a a' : a.1 ⊆ a'.1 → todo a' ≤ todo a.
Proof. intros H. unfold todo. apply subseteq_size. set_solver. Qed.

Lemma todo_mark n a :
  is_Some (succs n) → n ∉ a.1 → todo ({[ n ]} ∪ a.1, a.2 ++ [n]) < todo a.
Proof.
  intros Hn Hfresh. unfold todo. apply subset_size. simpl.
  split; [set_solver|].
  intros Hsub. apply universe_spec in Hn.
  assert (n ∈ universe ∖ a.1) as Hin by set_solver.
  apply Hsub in Hin. set_solver.
Qed.

Lemma grows_nil origin a : grows origin a a [].
Proof.
  split.
  - simpl. by rewrite (right_id_L ∅ (∪)).
  - by rewrite app_nil_r.
  - constructor.
  - intros x Hx. by apply elem_of_nil in Hx.
  - intros x Hx. by apply elem_of_nil in Hx.
  - intros x y Hx. by apply elem_of_nil in Hx.
Qed.

Lemma grows_subset origin a a' new : grows origin a a' new → a.1 ⊆ a'.1.
Proof. intros [-> _ _ _ _ _]. set_solver. Qed.

Lemma reachable_step n ns y x :
  succs n = Some ns → y ∈ ns → reachable y x → reachable n x.
Proof.
  intros Hn Hy [Hsome Hrtc]. split; [by rewrite Hn|].
  eapply rtc_l; [|exact Hrtc]. by exists ns.
Qed.

(** The loop over the successors, given what one call does. *)
Lemma visit_all_grows (visit : string → _ → option _) fuel :
  (∀ n a, todo a < fuel →
     ∃ a' new, visit n a = Some a' ∧ grows (reachable n) a a' new ∧
               (is_Some (succs n) → n ∈ a'.1)) →
  ∀ ns a, todo a < fuel →
    ∃ a' new, visit_all visit ns a = Some a' ∧
      grows (λ x, ∃ y, y ∈ ns ∧ reachable y x) a a' new ∧
      (∀ y, y ∈ ns → is_Some (succs y) → y ∈ a'.1).
Proof.
  intros Hvisit ns. induction ns as [|n ns IH]; intros a Hfuel; simpl.
  - exists a, []. split; [done|]. split; [apply grows_nil|].
    intros y Hy. by apply elem_of_nil in Hy.
  - destruct (Hvisit n a Hfuel) as (a1 & new1 & -> & G1 & Hn1). simpl.
    pose proof (grows_subset _ _ _ _ G1) as Hsub1.
    destruct (IH a1) as (a2 & new2 & -> & G2 & Hns2).
    { eapply Nat.le_lt_trans; [by apply todo_mono|done]. }
    pose proof (grows_subset _ _ _ _ G2) as Hsub2.
    exists a2, (new1 ++ new2). split; [done|]. split.
    + destruct G1 as [S1 L1 N1 F1 O1 C1], G2 as [S2 L2 N2 F2 O2 C2].
      split.
      * rewrite S2, S1, list_to_set_app_L. set_solver.
      * by rewrite L2, L1, app_assoc.
      * apply NoDup_app. split; [done|]. split; [|done].
        intros x Hx1 Hx2. apply F2 in Hx2. apply Hx2.
        rewrite S1. apply elem_of_union_r. by apply elem_of_list_to_set.
      * intros x [Hx|Hx]%elem_of_app; [by apply F1|].
        intros Hin. apply (F2 x Hx). by apply Hsub1.
      * intros x [Hx|Hx]%elem_of_app.
        -- exists n. split; [by apply elem_of_cons; left|by apply O1].
        -- destruct (O2 x Hx) as (y & Hy & Hr).
           exists y. split; [by apply elem_of_cons; right|done].
      * intros x y [Hx|Hx]%elem_of_app Hedge.
        -- apply Hsub2. by apply (C1 x).
        -- by apply (C2 x).
    + intros y [->|Hy]%elem_of_cons Hsome.
      * apply Hsub2. by apply Hn1.
      * by apply Hns2.
Qed.

(** One call: with more fuel than there are states left to visit, it
    returns, and what it adds is fresh, reachable and closed. *)
Lemma visit_grows fuel :
  ∀ n a, todo a < fuel →
    ∃ a' new, visit succs fuel n a = Some a' ∧ grows (reachable n) a a' new ∧
              (is_Some (succs n) → n ∈ a'.1).
Proof.
  induction fuel as [|fuel IH]; intros n a Hfuel; [lia|]. simpl.
  pose proof (grows_nil (reachable n) a) as Gnil.
  case_bool_decide as Hvis.
  { exists a, []. split; [done|]. split; [done|]. by intros _. }
  destruct (succs n) as [ns|] eqn:Hn.
  2:{ exists a, []. split; [done|]. split; [done|]. by intros [? ?]. }
  set (a1 := ({[ n ]} ∪ a.1, a.2 ++ [n])).
  assert (todo a1 < fuel) as Hfuel1.
  { assert (todo a1 < todo a); [|lia].
    apply todo_mark; [by rewrite Hn|done]. }
  destruct (visit_all_grows (visit succs fuel) fuel IH ns a1 Hfuel1)
    as (a2 & new & Hrun & G & Hns).
  exists a2, (n :: new). split; [done|].
  destruct G as [S2 L2 N2 F2 O2 C2]. simpl in *.
  assert (n ∈ a2.1) as Hn2 by (rewrite S2; set_solver).
  split; [|done]. split; simpl.
  - rewrite S2. set_solver.
  - by rewrite L2, <- app_assoc.
  - constructor; [|done]. intros Hin. apply (F2 n Hin). set_solver.
  - intros x [->|Hx]%elem_of_cons; [done|].
    intros Hin. apply (F2 x Hx). set_solver.
  - intros x [->|Hx]%elem_of_cons.
    + split; [by rewrite Hn|done].
    + destruct (O2 x Hx) as (y & Hy & Hr). by eapply reachable_step.
  - intros x y [->|Hx]%elem_of_cons Hedge.
    + destruct Hedge as (ns' & Hns' & Hy & Hsome).
      rewrite Hn in Hns'. injection Hns' as <-. by apply Hns.
    + by apply (C2 x).
Qed.

(** From the empty visited set: the log lists, without repetition,
    exactly what can be reached. *)
Lemma visit_from_empty entry :
  ∃ log, visit succs (S (size universe)) entry (∅, []) = Some (list_to_set log, log)
         ∧ NoDup log ∧ ∀ x, x ∈ log ↔ reachable entry x.
Proof.
  destruct (visit_grows (S (size universe)) entry (∅, []))
    as ([V log] & new & Hrun & [S L N F O C] & Hentry).
  { unfold todo. simpl. apply Nat.lt_succ_r, subseteq_size. set_solver. }
  simpl in *. subst log. rewrite (left_id_L ∅ (∪)) in S. subst V.
  exists new. split; [done|]. split; [done|].
  intros x. split; [by apply O|].
  intros [Hsome Hrtc]. specialize (Hentry Hsome).
  apply elem_of_list_to_set in Hentry.
  clear Hrun O Hsome. revert Hentry.
  induction Hrtc as [x|x y z Hxy _ IH]; intros Hx; [done|].
  apply IH, (elem_of_list_to_set (C:=gset string)). by apply (C x).
Qed.

End DfsFacts.

(** ** The two traversals follow the scheme *)

Lemma succs_of_dom (state_map : gmap string State) n :
  n ∈ dom state_map ↔ is_Some (succs_of state_map n).
Proof. unfold succs_of. by rewrite elem_of_dom, fmap_is_Some. Qed.

Section ExtractFacts.
Import OutputStates.

Variable state_map : gmap string State.

Lemma dict_set_keys k v d :
  list_to_set (C:=gset string) (dict_set k v d).*1 = {[ k ]} ∪ list_to_set d.*1.
Proof.
  induction d as [|[k' v'] d IH]; [set_solver|].
  cbn [dict_set]. case_bool_decide as Hk.
  - subst k'. rewrite !fmap_cons, !list_to_set_cons. cbn [fst]. set_solver.
  - rewrite !fmap_cons, !list_to_set_cons, IH. cbn [fst]. set_solver.
Qed.

Lemma dict_set_fresh k names :
  k ∉ names → dict_set k k (self_map names) = self_map (names ++ [k]).
Proof.
  induction names as [|x names IH]; simpl; [done|].
  intros Hk. apply not_elem_of_cons in Hk as [Hne Hk].
  rewrite bool_decide_eq_false_2 by done. by rewrite IH.
Qed.

Lemma self_map_keys names : (self_map names).*1 = names.
Proof.
  unfold self_map.
  induction names as [|x names IH]; [done|].
  rewrite !fmap_cons. cbn [fst]. by rewrite IH.
Qed.

Lemma extract_transitions_view rec rec' :
  (∀ n w, extract_view <$> rec n w = rec' n (extract_view w)) →
  ∀ ts w,
    extract_view <$> traverse_transitions rec ts w =
    Dfs.visit_all rec' (omap (λ t, truthy (tr_next t)) ts) (extract_view w).
Proof.
  intros Hrec ts. induction ts as [|t ts IH]; intros w; simpl; [done|].
  destruct (truthy (tr_next t)) as [n|]; simpl; [|by apply IH].
  rewrite <- Hrec. destruct (rec n w) as [w'|]; simpl; [by apply IH|done].
Qed.

Lemma extract_state_view fuel :
  ∀ n w,
    extract_view <$> traverse_state state_map fuel n w =
    Dfs.visit (succs_of state_map) fuel n (extract_view w).
Proof.
  induction fuel as [|fuel IH]; intros n w; simpl; [done|].
  unfold dict_contains.
  rewrite (bool_decide_ext (n ∈ (all_states w).*1)
                           (n ∈ list_to_set (C:=gset string) (all_states w).*1))
    by (by rewrite elem_of_list_to_set).
  case_bool_decide as Hvis; [done|].
  unfold succs_of. destruct (state_map !! n) as [state|]; simpl; [|done].
  rewrite (extract_transitions_view _ _ IH). unfold extract_view. simpl.
  by rewrite dict_set_keys.
Qed.

(** The dictionary maps each name to itself, in the order of the log. *)
Lemma extract_transitions_self rec :
  (∀ n w w', rec n w = Some w' → all_states w = self_map (calls w) →
             all_states w' = self_map (calls w')) →
  ∀ ts w w', traverse_transitions rec ts w = Some w' →
    all_states w = self_map (calls w) → all_states w' = self_map (calls w').
Proof.
  intros Hrec ts. induction ts as [|t ts IH]; intros w w'; simpl.
  - by intros [= <-].
  - destruct (truthy (tr_next t)) as [n|]; [|by apply IH].
    destruct (rec n w) as [w1|] eqn:Hn; simpl; [|done].
    intros Hrun Hw. eapply IH; [done|]. by eapply Hrec.
Qed.

Lemma extract_state_self fuel :
  ∀ n w w', traverse_state state_map fuel n w = Some w' →
    all_states w = self_map (calls w) → all_states w' = self_map (calls w').
Proof.
  induction fuel as [|fuel IH]; intros n w w'; simpl; [done|].
  unfold dict_contains. case_bool_decide as Hvis; [by intros [= <-]|].
  destruct (state_map !! n) as [state|]; [|by intros [= <-]].
  intros Hrun Hw. eapply (extract_transitions_self _ IH); [done|]. simpl.
  rewrite Hw, self_map_keys in Hvis. rewrite Hw. by apply dict_set_fresh.
Qed.

End ExtractFacts.

Section RenderFacts.
Import Mermaid.

Variable state_map : gmap string State.
Variable friendly_states : gmap string string.

Lemma emit_edge_view state_name t n w :
  render_view (emit_edge state_name t n w) = render_view w.
Proof.
  unfold emit_edge.
  destruct (tr_conditions t) as [[|c cs]|]; repeat case_bool_decide; done.
Qed.

Lemma emit_node_view state_name state w :
  render_view (emit_node friendly_states state_name state w) = render_view w.
Proof. unfold emit_node. by case_bool_decide. Qed.

Lemma render_transitions_view rec rec' src :
  (∀ n w, render_view <$> rec n w = rec' n (render_view w)) →
  ∀ ts w,
    render_view <$> traverse_transitions rec src ts w =
    Dfs.visit_all rec' (omap (λ t, truthy (tr_next t)) ts) (render_view w).
Proof.
  intros Hrec ts. induction ts as [|t ts IH]; intros w; simpl; [done|].
  destruct (truthy (tr_next t)) as [n|]; simpl; [|by apply IH].
  rewrite <- (emit_edge_view src t n w), <- Hrec.
  destruct (rec n _) as [w'|]; simpl; [by apply IH|done].
Qed.

Lemma render_state_view fuel :
  ∀ n w,
    render_view <$> traverse_state state_map friendly_states fuel n w =
    Dfs.visit (succs_of state_map) fuel n (render_view w).
Proof.
  induction fuel as [|fuel IH]; intros n w; simpl; [done|].
  case_bool_decide as Hvis; [done|].
  unfold succs_of. destruct (state_map !! n) as [state|]; simpl; [|done].
  rewrite (render_transitions_view _ _ _ IH). by rewrite emit_node_view.
Qed.

(** The traversal only appends to [graph_parts]. *)
Lemma emit_edge_parts state_name t n w :
  ∃ lines, graph_parts (emit_edge state_name t n w) = graph_parts w ++ lines.
Proof.
  unfold emit_edge.
  destruct (tr_conditions t) as [[|c cs]|]; repeat case_bool_decide; simpl;
    rewrite <- ?app_assoc; eauto.
Qed.

Lemma render_transitions_parts rec src :
  (∀ n w w', rec n w = Some w' →
             ∃ lines, graph_parts w' = graph_parts w ++ lines) →
  ∀ ts w w', traverse_transitions rec src ts w = Some w' →
    ∃ lines, graph_parts w' = graph_parts w ++ lines.
Proof.
  intros Hrec ts. induction ts as [|t ts IH]; intros w w'; simpl.
  - intros [= <-]. exists []. by rewrite app_nil_r.
  - destruct (truthy (tr_next t)) as [n|]; [|by apply IH].
    destruct (rec n _) as [w1|] eqn:Hn; simpl; [|done].
    intros Hrun. destruct (emit_edge_parts src t n w) as [l0 H0].
    destruct (Hrec _ _ _ Hn) as [l1 H1]. destruct (IH _ _ Hrun) as [l2 H2].
    exists (l0 ++ l1 ++ l2). by rewrite H2, H1, H0, <- !app_assoc.
Qed.

Lemma render_state_parts fuel :
  ∀ n w w', traverse_state state_map friendly_states fuel n w = Some w' →
    ∃ lines, graph_parts w' = graph_parts w ++ lines.
Proof.
  induction fuel as [|fuel IH]; intros n w w'; simpl; [done|].
  assert (∃ lines, graph_parts w = graph_parts w ++ lines) as Hnil
    by (exists []; by rewrite app_nil_r).
  case_bool_decide as Hvis; [by intros [= <-]|].
  destruct (state_map !! n) as [state|]; [|by intros [= <-]].
  intros Hrun.
  destruct (render_transitions_parts _ _ IH _ _ _ Hrun) as [l1 H1].
  revert H1. unfold emit_node. case_bool_decide; simpl; intros ->;
    rewrite <- app_assoc; eauto.
Qed.

Lemma render_state_absent fuel n w :
  state_map !! n = None →
  traverse_state state_map friendly_states (S fuel) n w = Some w.
Proof. intros Hn. simpl. rewrite Hn. by case_bool_decide. Qed.

End RenderFacts.

(** ** Entry resolution *)

(** C6: when the definition has a states collection whose states carry a
    type, entry resolution returns what section 4.2 describes: the target
    of the first transition, in order, of the first trigger state (or of
    the synthetic one) whose event is the trigger kind's value, and none
    when no transition matches; and whenever it returns, it returns that. *)
Theorem get_first_state_resolves_entry flow_definition trigger_type states :
  fd_states flow_definition = Some states →
  (Forall (λ s, is_Some (st_type s)) states →
   Utils.get_first_state flow_definition trigger_type =
     Return (Utils.resolve_entry states trigger_type)) ∧
  (∀ r, Utils.get_first_state flow_definition trigger_type = Return r →
        r = Utils.resolve_entry states trigger_type).
Proof.
  intros Hstates. unfold Utils.get_first_state, get_states. rewrite Hstates.
  unfold Utils.resolve_entry. split.
  - intros Htyped. unfold mbind, outcome_mbind, outcome_bind.
    rewrite (find_trigger_state_typed _ _ Htyped).
    unfold mret, outcome_ret. by rewrite find_first_state_find.
  - intros r. unfold mbind, outcome_mbind, outcome_bind.
    destruct (Utils.find_trigger_state states _) as [s| |] eqn:Hfind; [|done..].
    apply find_trigger_state_return in Hfind as ->.
    unfold mret, outcome_ret. intros [= <-].
    by rewrite find_first_state_find.
Qed.

Lemma get_first_state_resolves_entry_witness :
  Utils.get_first_state Samples.call_flow INCOMING_CALL = Return (Some "A").
Proof.
  refine (proj1 (get_first_state_resolves_entry Samples.call_flow INCOMING_CALL
                   _ eq_refl) _).
  repeat constructor; by eexists.
Defined.

(** C10: entry resolution raises nothing when the definition has a states
    collection and every state in it carries a type; without the states
    collection it raises [KeyError], and so it does at a state without a
    type that is met before any trigger state. *)
Theorem get_first_state_total_when_typed flow_definition trigger_type :
  (∀ states,
     fd_states flow_definition = Some states →
     Forall (λ s, is_Some (st_type s)) states →
     ∃ r, Utils.get_first_state flow_definition trigger_type = Return r) ∧
  (fd_states flow_definition = None →
     Utils.get_first_state flow_definition trigger_type = Raise (KeyError "states")) ∧
  (∀ before s after,
     fd_states flow_definition = Some (before ++ s :: after) →
     Forall (λ s, is_Some (st_type s) ∧ st_type s ≠ Some "trigger") before →
     st_type s = None →
     Utils.get_first_state flow_definition trigger_type = Raise (KeyError "type")).
Proof.
  split; [|split].
  - intros states Hstates Htyped. eexists.
    unfold Utils.get_first_state, get_states. rewrite Hstates.
    unfold mbind, outcome_mbind, outcome_bind.
    by rewrite (find_trigger_state_typed _ _ Htyped).
  - intros Hnone. unfold Utils.get_first_state, get_states. by rewrite Hnone.
  - intros before s after Hstates Hbefore Hs.
    unfold Utils.get_first_state, get_states. rewrite Hstates.
    unfold mbind, outcome_mbind, outcome_bind.
    by rewrite (find_trigger_state_untyped _ _ _ _ Hbefore Hs).
Qed.

Lemma get_first_state_total_when_typed_witness :
  (∃ r, Utils.get_first_state Samples.call_flow INCOMING_CALL = Return r) ∧
  Utils.get_first_state Samples.untyped_flow INCOMING_CALL = Raise (KeyError "type").
Proof.
  split.
  - refine (proj1 (get_first_state_total_when_typed Samples.call_flow INCOMING_CALL)
              _ eq_refl _).
    repeat constructor; by eexists.
  - refine (proj2 (proj2 (get_first_state_total_when_typed Samples.untyped_flow
                            INCOMING_CALL)) [] _ _ eq_refl _ eq_refl).
    constructor.
Defined.

(** ** Edges *)

(** Decide the tests on the event name, drop the impossible cases, and
    compare the lines appended. *)
Ltac settle_events :=
  repeat case_bool_decide;
  try (exfalso; destruct_or?; congruence);
  try (exfalso; naive_solver);
  simpl; rewrite <- ?app_assoc; eauto.

(** C7: the label of an edge is the first condition's friendly label when
    the transition carries a condition; else there is no label when the
    event is "next"; else the label is the event name.  The link index
    grows by one with each edge, and an edge of event "timeout" without a
    condition is followed by the red styling line of its link index. *)
Theorem edge_label_precedence source t target w :
  let w' := Mermaid.emit_edge source t target w in
  let index := (Mermaid.link_index w + 1)%Z in
  Mermaid.link_index w' = index ∧
  (∀ c cs, tr_conditions t = Some (c :: cs) →
     Mermaid.graph_parts w' =
     Mermaid.graph_parts w
       ++ [labelled_edge source (py_str (cond_friendly_name c)) target]) ∧
  (no_condition t → tr_event t = Some "next" →
     Mermaid.graph_parts w' = Mermaid.graph_parts w ++ [plain_edge source target]) ∧
  (no_condition t → tr_event t ≠ Some "next" →
     ∃ style,
       Mermaid.graph_parts w' =
       Mermaid.graph_parts w
         ++ labelled_edge source (py_str (tr_event t)) target :: style) ∧
  (no_condition t → tr_event t = Some "timeout" →
     Mermaid.graph_parts w' =
     Mermaid.graph_parts w
       ++ [labelled_edge source "timeout" target; red_link index]).
Proof.
  unfold Mermaid.emit_edge, no_condition, labelled_edge, plain_edge, red_link.
  cbn zeta. repeat split.
  - destruct (tr_conditions t) as [[|c cs]|]; repeat case_bool_decide; done.
  - by intros c cs ->.
  - intros [-> | ->] ->; settle_events.
  - intros [-> | ->] Hne; settle_events.
  - intros [-> | ->] ->; settle_events.
Qed.

(** C1, as the program has it: the red styling line of the edge's link
    index follows the edge line exactly when the transition carries no
    condition and its event is "failed" or "timeout"; any other edge,
    a condition-labelled one included, is its edge line alone. *)
Theorem failure_styling_without_condition source t target w :
  let w' := Mermaid.emit_edge source t target w in
  (no_condition t ∧ failure_event t →
     Mermaid.graph_parts w' =
     Mermaid.graph_parts w
       ++ [labelled_edge source (py_str (tr_event t)) target;
           red_link (Mermaid.link_index w + 1)]) ∧
  (¬ (no_condition t ∧ failure_event t) →
     ∃ line, Mermaid.graph_parts w' = Mermaid.graph_parts w ++ [line]).
Proof.
  unfold Mermaid.emit_edge, no_condition, failure_event, labelled_edge, red_link.
  cbn zeta. split.
  - intros [[-> | ->] [-> | ->]]; settle_events.
  - intros Hnot.
    destruct (tr_conditions t) as [[|c cs]|]; [|eauto|];
      (case_bool_decide; [exfalso; apply Hnot; auto|]); settle_events.
Qed.

Lemma failure_styling_without_condition_witness :
  Mermaid.graph_parts
    (Mermaid.emit_edge "B" (Samples.transition "failed" "A") "A"
       {| Mermaid.visited_states := ∅; Mermaid.graph_parts := [];
          Mermaid.link_index := 1; Mermaid.calls := [] |}) =
  ["    B --> |failed| A"; "    linkStyle 2 stroke:red"].
Proof.
  refine (proj1 (failure_styling_without_condition "B"
                   (Samples.transition "failed" "A") "A" _) _).
  split; [by left|by left].
Defined.

(** C1 as stated fails: a transition of event "failed" that carries a
    condition is rendered without a styling line. *)
Lemma condition_labelled_failure_not_styled :
  ¬ styles_every_failure_edge ∧
  Mermaid.generate_mermaid_graph ∅ Samples.loads_empty_object (Some "A")
    Samples.guarded_flow None =
  Return ["```mermaid"; "flowchart TD"; "    A(A)"; "    A --> |No answer| B";
          "    B(B)"; "```"].
Proof.
  split; [|by vm_compute].
  intros H.
  destruct (H "A" Samples.failed_with_condition "B"
              {| Mermaid.visited_states := ∅; Mermaid.graph_parts := [];
                 Mermaid.link_index := (-1); Mermaid.calls := [] |})
    as [line Hline]; [by left|].
  vm_compute in Hline. discriminate Hline.
Qed.

(** ** Traversals *)

(** From the empty dictionary, with the fuel of its caller, the
    extraction returns; its calls are the reachable states, once each. *)
Lemma extract_from_empty (state_map : gmap string State) (entry : string) :
  ∃ w,
    OutputStates.traverse_state state_map (S (size state_map)) entry
      {| OutputStates.all_states := []; OutputStates.calls := [] |} = Some w ∧
    NoDup (OutputStates.calls w) ∧
    (∀ x, x ∈ OutputStates.calls w ↔
          Dfs.reachable (succs_of state_map) entry x) ∧
    OutputStates.all_states w = self_map (OutputStates.calls w).
Proof.
  destruct (visit_from_empty (succs_of state_map) (dom state_map)
              (succs_of_dom state_map) entry) as (log & Hrun & Hnodup & Hlog).
  rewrite size_dom in Hrun.
  pose proof (extract_state_view state_map (S (size state_map)) entry
                {| OutputStates.all_states := []; OutputStates.calls := [] |})
    as Hview.
  change (extract_view _) with (∅ : gset string, @nil string) in Hview.
  rewrite Hrun in Hview.
  destruct (OutputStates.traverse_state _ _ _ _) as [w|] eqn:Hw; [|done].
  injection Hview as _ Hcalls. exists w. rewrite Hcalls.
  split; [done|]. split; [done|]. split; [exact Hlog|].
  rewrite <- Hcalls. by eapply extract_state_self.
Qed.

(** The same for the rendering, whatever was rendered before. *)
Lemma render_from_empty (state_map : gmap string State)
    (friendly_states : gmap string string) (entry : string)
    (parts : list string) (index : Z) :
  ∃ w,
    Mermaid.traverse_state state_map friendly_states (S (size state_map)) entry
      {| Mermaid.visited_states := ∅; Mermaid.graph_parts := parts;
         Mermaid.link_index := index; Mermaid.calls := [] |} = Some w ∧
    NoDup (Mermaid.calls w) ∧
    (∀ x, x ∈ Mermaid.calls w ↔ Dfs.reachable (succs_of state_map) entry x) ∧
    Mermaid.visited_states w = list_to_set (Mermaid.calls w).
Proof.
  destruct (visit_from_empty (succs_of state_map) (dom state_map)
              (succs_of_dom state_map) entry) as (log & Hrun & Hnodup & Hlog).
  rewrite size_dom in Hrun.
  pose proof (render_state_view state_map friendly_states (S (size state_map))
                entry
                {| Mermaid.visited_states := ∅; Mermaid.graph_parts := parts;
                   Mermaid.link_index := index; Mermaid.calls := [] |})
    as Hview.
  change (render_view _) with (∅ : gset string, @nil string) in Hview.
  rewrite Hrun in Hview.
  destruct (Mermaid.traverse_state _ _ _ _ _) as [w|] eqn:Hw; [|done].
  injection Hview as Hvisited Hcalls. exists w. rewrite Hcalls.
  split; [done|]. split; [done|]. by split; [exact Hlog|].
Qed.

(** C5: on every state map, cyclic or not, both traversals return with
    the fuel their callers give them, and the calls that pass the guard
    are, without repetition, exactly the states that can be reached from
    the entry: the name is marked before the transitions are followed. *)
Theorem traversals_visit_each_state_once
    (state_map : gmap string State) (friendly_states : gmap string string)
    (entry : string) (parts : list string) (index : Z) :
  (∃ w,
     OutputStates.traverse_state state_map (S (size state_map)) entry
       {| OutputStates.all_states := []; OutputStates.calls := [] |} = Some w ∧
     NoDup (OutputStates.calls w) ∧
     (∀ x, x ∈ OutputStates.calls w ↔
           Dfs.reachable (succs_of state_map) entry x) ∧
     OutputStates.all_states w = self_map (OutputStates.calls w)) ∧
  (∃ w,
     Mermaid.traverse_state state_map friendly_states (S (size state_map)) entry
       {| Mermaid.visited_states := ∅; Mermaid.graph_parts := parts;
          Mermaid.link_index := index; Mermaid.calls := [] |} = Some w ∧
     NoDup (Mermaid.calls w) ∧
     (∀ x, x ∈ Mermaid.calls w ↔ Dfs.reachable (succs_of state_map) entry x) ∧
     Mermaid.visited_states w = list_to_set (Mermaid.calls w)).
Proof.
  split; [apply extract_from_empty|apply render_from_empty].
Qed.

(** X3: the states listed for a trigger are exactly the reachable ones,
    each once and mapped to itself. *)
Lemma extraction_lists_reachable flow_definition trigger_type states entry
    state_map :
  fd_states flow_definition = Some states →
  Utils.get_first_state flow_definition trigger_type = Return (Some entry) →
  entry ≠ "" →
  build_state_map states ∅ = Return state_map →
  ∃ names,
    OutputStates.get_states_by_trigger_type flow_definition trigger_type =
      ([], Return (self_map names)) ∧
    NoDup names ∧
    ∀ x, x ∈ names ↔ Dfs.reachable (succs_of state_map) entry x.
Proof.
  intros Hstates Hfirst Hentry Hmap.
  unfold OutputStates.get_states_by_trigger_type.
  rewrite Hstates, Hfirst. unfold truthy.
  rewrite (bool_decide_eq_false_2 _ Hentry), Hmap.
  destruct (extract_from_empty state_map entry) as (w & -> & Hnodup & Hall & ->).
  by exists (OutputStates.calls w).
Qed.

(** ** The rendered block *)

Lemma build_state_map_named states :
  Forall (λ s, is_Some (st_name s)) states →
  ∀ acc, ∃ state_map,
    build_state_map states acc = Return state_map ∧
    ∀ n, is_Some (state_map !! n) ↔
         is_Some (acc !! n) ∨ Some n ∈ st_name <$> states.
Proof.
  induction 1 as [|s states [name Hname] _ IH]; intros acc;
    cbn [build_state_map].
  - exists acc. split; [done|]. intros n. rewrite fmap_nil, elem_of_nil. tauto.
  - rewrite Hname. destruct (IH (<[name := s]> acc)) as (m & -> & Hm).
    exists m. split; [done|]. intros n. rewrite Hm, fmap_cons, elem_of_cons, Hname.
    rewrite lookup_insert_is_Some. destruct (decide (name = n)) as [->|Hne].
    + split; [auto|]. intros _. left. by left.
    + split.
      * intros [[?|[_ ?]]|?]; [done|auto..].
      * intros [?|[[= ?]|?]]; [auto|done|auto].
Qed.

(** C8: when the friendly names load and every state of the definition
    is named, the renderer returns the open fence, the flowchart
    declaration, a body and the close fence; the body is empty when the
    entry is none or names no state. *)
Theorem rendered_block_is_fenced files json_loads initial_state flow_definition
    states_file friendly_states states :
  Mermaid.load_friendly_states files json_loads states_file = Return friendly_states →
  fd_states flow_definition = Some states →
  Forall (λ s, is_Some (st_name s)) states →
  ∃ body,
    Mermaid.generate_mermaid_graph files json_loads initial_state
      flow_definition states_file =
    Return (["```mermaid"; "flowchart TD"] ++ body ++ ["```"]) ∧
    (initial_state = None ∨
     (∃ n, initial_state = Some n ∧ Some n ∉ st_name <$> states) →
     body = []).
Proof.
  intros Hload Hstates Hnamed.
  unfold Mermaid.generate_mermaid_graph, get_states.
  rewrite Hload, Hstates. unfold mbind, outcome_mbind, outcome_bind.
  destruct (build_state_map_named states Hnamed ∅) as (m & -> & Hm).
  destruct initial_state as [entry|].
  - destruct (render_from_empty m friendly_states entry
                ["```mermaid"; "flowchart TD"] (-1)) as (w & Hw & _).
    rewrite Hw.
    destruct (render_state_parts _ _ _ _ _ _ Hw) as [body Hbody].
    simpl in Hbody. exists body. split.
    + simpl. by rewrite Hbody.
    + intros [?|(n & [= <-] & Habsent)]; [done|].
      assert (m !! entry = None) as Hnone.
      { apply eq_None_not_Some. rewrite Hm, lookup_empty.
        intros [[? ?]|?]; done. }
      rewrite (render_state_absent _ _ _ _ _ Hnone) in Hw.
      injection Hw as <-. simpl in Hbody.
      by apply (app_inv_head [_; _]) in Hbody.
  - exists []. by split.
Qed.

Lemma rendered_block_is_fenced_witness :
  ∃ body,
    Mermaid.generate_mermaid_graph ∅ Samples.loads_empty_object (Some "A")
      Samples.call_flow None =
    Return (["```mermaid"; "flowchart TD"] ++ body ++ ["```"]) ∧
    (Some "A" = None ∨
     (∃ n, Some "A" = Some n ∧
           Some n ∉ [Some "Trigger"; Some "A"; Some "B"; Some "C"]) →
     body = []).
Proof.
  refine (rendered_block_is_fenced ∅ Samples.loads_empty_object (Some "A")
            Samples.call_flow None ∅ _ eq_refl eq_refl _).
  repeat constructor; by eexists.
Defined.

(** ** Definitions and sources that cannot be used *)

(** C2 fails in the renderer: on a definition without a states
    collection the state extraction prints and returns the empty
    dictionary, but the renderer raises [KeyError]. *)
Theorem renderer_raises_without_states files json_loads initial_state trigger_type :
  OutputStates.get_states_by_trigger_type {| fd_states := None |} trigger_type =
    (["Invalid flow definition: 'states' key not found."], Return []) ∧
  Mermaid.generate_mermaid_graph files json_loads initial_state
    {| fd_states := None |} None = Raise (KeyError "states").
Proof. by split. Qed.

(** C3 fails: a friendly-name file that is not valid JSON makes the
    renderer raise [JSONDecodeError], and nothing is rendered; the
    loader of utils.py, which the renderer does not call, prints the
    error and returns. *)
Theorem renderer_raises_on_invalid_json files json_loads initial_state
    flow_definition path text details :
  path ≠ "" →
  files !! path = Some text →
  json_loads text = inl details →
  Mermaid.generate_mermaid_graph files json_loads initial_state
    flow_definition (Some path) = Raise (JSONDecodeError details) ∧
  Utils.load_json_object files json_loads path =
    (["Error: The file '" +:+ path +:+ "' contains invalid JSON. Details: "
        +:+ details], None).
Proof.
  intros Hpath Hfile Hjson.
  unfold Mermaid.generate_mermaid_graph, Mermaid.load_friendly_states, truthy,
    Utils.load_json_object.
  rewrite (bool_decide_eq_false_2 _ Hpath), Hfile, Hjson. done.
Qed.

Lemma renderer_raises_on_invalid_json_witness :
  Mermaid.generate_mermaid_graph {[ "names.json" := "{'A': 'Greeting'" ]}
    Samples.loads_empty_object (Some "A") Samples.call_flow (Some "names.json") =
  Raise (JSONDecodeError "Expecting value") ∧
  Utils.load_json_object {[ "names.json" := "{'A': 'Greeting'" ]}
    Samples.loads_empty_object "names.json" =
  (["Error: The file 'names.json' contains invalid JSON. Details: Expecting value"],
   None).
Proof.
  by refine (renderer_raises_on_invalid_json _ Samples.loads_empty_object _ _
               "names.json" "{'A': 'Greeting'" "Expecting value" _ _ _).
Defined.

(** ** The pattern of the section updater *)

Section PatternFacts.
Import Re UpdateDoc.

Lemma strip_prefix_Some p s r : strip_prefix p s = Some r ↔ s = p ++ r.
Proof.
  revert s. induction p as [|a p IH]; intros s; simpl.
  - split; [by intros [= ->]|by intros ->].
  - destruct s as [|b s]; [split; [done|intros [=]]|].
    case_bool_decide as Hab.
    + subst b. rewrite IH. split; [by intros ->|by intros [= ->]].
    + split; [done|]. intros [= ? ?]. by subst.
Qed.

Lemma strip_prefix_app p r : strip_prefix p (p ++ r) = Some r.
Proof. by apply strip_prefix_Some. Qed.

Lemma occurs_last_nil needle : occurs_last needle [].
Proof.
  intros a b Heq. apply (f_equal length) in Heq.
  rewrite !length_app in Heq. simpl in Heq.
  destruct b; [done|]. simpl in Heq. lia.
Qed.

Lemma find_first_Some needle s before rest :
  find_first needle s = Some (before, rest) →
  s = before ++ needle ++ rest ∧ occurs_last needle before.
Proof.
  revert before. induction s as [|c s IH]; intros before; simpl.
  - destruct (strip_prefix needle []) as [r|] eqn:Hp; [|done].
    intros [= <- <-]. apply strip_prefix_Some in Hp.
    split; [done|apply occurs_last_nil].
  - destruct (strip_prefix needle (c :: s)) as [r|] eqn:Hp.
    + intros [= <- <-]. apply strip_prefix_Some in Hp.
      split; [done|apply occurs_last_nil].
    + destruct (find_first needle s) as [[m r]|]; [|done].
      intros [= <- <-]. destruct (IH m eq_refl) as [-> Hlast].
      split; [done|]. intros a b Heq. destruct a as [|c' a].
      * simpl in Heq.
        assert (c :: m ++ needle ++ r = needle ++ b ++ r) as Hs.
        { rewrite (app_assoc needle), Heq. simpl. by rewrite <- app_assoc. }
        rewrite Hs, strip_prefix_app in Hp. done.
      * injection Heq as _ Heq. by apply (Hlast a b).
Qed.

Lemma find_first_None needle s :
  find_first needle s = None → ∀ before rest, s ≠ before ++ needle ++ rest.
Proof.
  induction s as [|c s IH]; simpl.
  - destruct (strip_prefix needle []) as [r|] eqn:Hp; [done|].
    intros _ before rest Heq. destruct before; [|done].
    simpl in Heq. rewrite Heq, strip_prefix_app in Hp. done.
  - destruct (strip_prefix needle (c :: s)) as [r|] eqn:Hp; [done|].
    destruct (find_first needle s) as [[m r]|] eqn:Hfind; [done|].
    intros _ before rest Heq. destruct before as [|c' before].
    + simpl in Heq. rewrite Heq, strip_prefix_app in Hp. done.
    + injection Heq as _ Heq. by apply (IH eq_refl before rest).
Qed.

Lemma find_first_skip needle c s :
  strip_prefix needle (c :: s) = None →
  snd <$> find_first needle (c :: s) = snd <$> find_first needle s.
Proof.
  intros Hp. cbn [find_first]. rewrite Hp.
  by destruct (find_first needle s) as [[? ?]|].
Qed.

Section Tail.
(** The end of the pattern, [\s*(.*?)\s*] and a literal that begins
    with a character that is no blank. *)
Variables (x : ascii) (e' : text).
Hypothesis x_no_space : is_space x = false.

Abbreviation e := (x :: e').
Abbreviation spaces_then_end := (match_here [SpaceStar; Literal e]).

Lemma spaces_then_end_here s rest :
  strip_prefix e s = Some rest → spaces_then_end s = Some ([], rest).
Proof.
  intros Hp. cbn [match_here]. destruct s as [|c s]; [done|].
  assert (c = x) as ->.
  { simpl in Hp. by case_bool_decide. }
  cbn [space_star]. rewrite x_no_space. cbv beta. by rewrite Hp.
Qed.

Lemma spaces_then_end_skip c s :
  strip_prefix e (c :: s) = None →
  spaces_then_end (c :: s) =
  if is_space c then spaces_then_end s else None.
Proof.
  intros Hp. cbn [match_here space_star]. cbv beta.
  rewrite Hp. destruct (is_space c); [|done].
  by destruct (space_star _ s).
Qed.

Lemma lazy_group_rest acc s :
  snd <$> lazy_group spaces_then_end acc s = snd <$> find_first e s.
Proof.
  revert acc. induction s as [|c s IH]; intros acc.
  - done.
  - cbn [lazy_group].
    destruct (strip_prefix e (c :: s)) as [rest|] eqn:Hp.
    + rewrite (spaces_then_end_here _ _ Hp). cbn [find_first].
      by rewrite Hp.
    + rewrite (spaces_then_end_skip _ _ Hp), (find_first_skip _ _ _ Hp).
      rewrite <- (IH (c :: acc)). destruct (is_space c); [|done].
      destruct s as [|c' s']; cbn [lazy_group];
        by destruct (spaces_then_end _) as [[? ?]|].
Qed.

Lemma tail_rest s :
  snd <$> match_here [SpaceStar; LazyGroup; SpaceStar; Literal e] s =
  snd <$> find_first e s.
Proof.
  change (match_here [SpaceStar; LazyGroup; SpaceStar; Literal e] s)
    with (space_star (lazy_group spaces_then_end []) s).
  induction s as [|c s IH].
  - apply lazy_group_rest.
  - cbn [space_star]. destruct (is_space c) eqn:Hc;
      [|apply lazy_group_rest].
    destruct (space_star _ s) as [[gs rest]|] eqn:Hs.
    + rewrite find_first_skip; [done|].
      simpl. case_bool_decide; [congruence|done].
    + apply lazy_group_rest.
Qed.
End Tail.

End PatternFacts.

(** ** The section updater *)

Section UpdateFacts.
Import Re UpdateDoc.

#[local] Arguments start_tag : simpl never.
#[local] Arguments end_tag : simpl never.

Variable section_identifier : text.

Abbreviation opening := (start_tag section_identifier).
Abbreviation closing := (end_tag section_identifier).
Abbreviation pattern := (regex_pattern section_identifier).

Lemma match_pattern_rest s :
  snd <$> match_here pattern s =
  match strip_prefix opening s with
  | Some r => snd <$> find_first closing r
  | None => None
  end.
Proof.
  unfold regex_pattern.
  change (match_here (Literal opening :: ?p) s)
    with (match strip_prefix opening s with
          | Some s' => match_here p s'
          | None => None
          end).
  destruct (strip_prefix opening s) as [r|]; [|done].
  by apply (tail_rest "<"%char).
Qed.

Lemma match_pattern_Some s groups rest :
  match_here pattern s = Some (groups, rest) →
  ∃ mid, s = opening ++ mid ++ closing ++ rest ∧ occurs_last closing mid.
Proof.
  intros Hm. pose proof (match_pattern_rest s) as Hrest.
  rewrite Hm in Hrest.
  change (snd <$> Some (groups, rest)) with (Some rest) in Hrest.
  destruct (strip_prefix opening s) as [r|] eqn:Hp; [|done].
  apply strip_prefix_Some in Hp as ->.
  destruct (find_first closing r) as [[mid rest']|] eqn:Hfind; [|done].
  injection Hrest as ->.
  apply find_first_Some in Hfind as [-> Hlast]. by exists mid.
Qed.

Lemma match_pattern_None s :
  match_here pattern s = None →
  ∀ mid rest, s ≠ opening ++ mid ++ closing ++ rest.
Proof.
  intros Hm mid rest ->. pose proof (match_pattern_rest
    (opening ++ mid ++ closing ++ rest)) as Hrest.
  rewrite Hm, strip_prefix_app in Hrest.
  destruct (find_first closing _) as [[? ?]|] eqn:Hfind; [done|].
  by apply (find_first_None _ _ Hfind mid rest).
Qed.

Lemma no_pair_nil : ¬ has_pair opening closing [].
Proof.
  intros (pre & mid & post & Heq). apply (f_equal length) in Heq.
  rewrite !length_app in Heq. simpl in Heq. lia.
Qed.

Lemma no_pair_cons c s :
  match_here pattern (c :: s) = None →
  ¬ has_pair opening closing s → ¬ has_pair opening closing (c :: s).
Proof.
  intros Hm Hs (pre & mid & post & Heq). destruct pre as [|c' pre].
  - by apply (match_pattern_None _ Hm mid post).
  - injection Heq as _ Heq. apply Hs. by exists pre, mid, post.
Qed.


Lemma replaced_cons repl c s out :
  match_here pattern (c :: s) = None →
  replaced opening closing repl s out →
  replaced opening closing repl (c :: s) (c :: out).
Proof.
  intros Hm Hrep. destruct Hrep as [doc Hno|pre mid post out Hs He Hrep].
  - apply replaced_none. by apply no_pair_cons.
  - apply (replaced_pair _ _ _ (c :: pre)); [|done..].
    intros a b Heq. destruct a as [|c' a].
    + destruct (match_pattern_None _ Hm (b ++ mid) post).
      change (opening ++ b = (c :: pre) ++ opening) in Heq.
      change ((c :: pre) ++ opening ++ mid ++ closing ++ post =
              opening ++ (b ++ mid) ++ closing ++ post).
      rewrite <- (app_assoc b), (app_assoc opening b), Heq.
      by rewrite <- !app_assoc.
    + injection Heq as _ Heq. by apply (Hs a b).
Qed.

(** The scan with a literal replacement. *)
Lemma sub_loop_replaced repl fuel :
  ∀ s, length s < fuel →
    ∃ out, sub_loop fuel pattern (λ _ _, repl) s = Some out ∧
           replaced opening closing repl s out.
Proof.
  induction fuel as [|fuel IH]; intros s Hlen; [lia|].
  cbn [sub_loop].
  destruct (match_here pattern s) as [[groups rest]|] eqn:Hm.
  - destruct (match_pattern_Some _ _ _ Hm) as (mid & -> & Hlast).
    destruct (IH rest) as (out & -> & Hrep).
    { rewrite !length_app in Hlen. simpl in Hlen. lia. }
    exists (repl ++ out). split; [done|].
    by apply (replaced_pair _ _ _ [] mid rest out); [apply occurs_last_nil|..].
  - destruct s as [|c s].
    + exists []. split; [done|]. apply replaced_none, no_pair_nil.
    + destruct (IH s) as (out & -> & Hrep); [simpl in Hlen; lia|].
      exists (c :: out). split; [done|]. by apply replaced_cons.
Qed.


Lemma no_backslash_check (l : text) :
  bool_decide (backslash ∈ l) = false → backslash ∉ l.
Proof. exact (bool_decide_eq_false_1 _). Qed.

Lemma literal_replacement subx new_graph :
  backslash ∉ new_graph → backslash ∉ section_identifier →
  compile_template subx (replacement new_graph section_identifier) =
  Some (λ _ _, replacement new_graph section_identifier).
Proof.
  intros Hg Hid. unfold compile_template.
  rewrite bool_decide_eq_false_2; [done|].
  unfold replacement, start_tag, end_tag.
  rewrite !elem_of_app.
  pose proof (no_backslash_check (lit "<!-- ") eq_refl).
  pose proof (no_backslash_check (lit "-start -->") eq_refl).
  pose proof (no_backslash_check (lit "-end -->") eq_refl).
  pose proof (no_backslash_check [newline] eq_refl).
  tauto.
Qed.

End UpdateFacts.



(** ** Reading and writing in text mode *)







(** The run of the section update with a literal replacement. *)
Lemma update_with_literal subx linesep (files : gmap string Re.text) filename
    new_graph section_identifier stored :
  Re.backslash ∉ new_graph →
  Re.backslash ∉ section_identifier →
  files !! filename = Some stored →
  ∃ updated_content,
    UpdateDoc.update_mermaid_graph subx linesep files filename new_graph
      section_identifier =
    (<[filename := UpdateDoc.write_newlines linesep updated_content]> files,
     [], Return ()) ∧
    UpdateDoc.replaced (UpdateDoc.start_tag section_identifier)
      (UpdateDoc.end_tag section_identifier)
      (UpdateDoc.replacement new_graph section_identifier)
      (UpdateDoc.universal_newlines stored) updated_content.
Proof.
  intros Hg Hid Hfile. unfold UpdateDoc.update_mermaid_graph, Re.sub.
  rewrite Hfile. cbn zeta. rewrite (literal_replacement _ subx _ Hg Hid).
  destruct (sub_loop_replaced section_identifier
              (UpdateDoc.replacement new_graph section_identifier)
              (S (length (UpdateDoc.universal_newlines stored)))
              (UpdateDoc.universal_newlines stored)) as (out & -> & Hrep); [lia|].
  by exists out.
Qed.









(** ** Scenario 7 of section 8 of the specification *)

Example scenario_entry :
  Utils.get_first_state Samples.call_flow INCOMING_CALL = Return (Some "A").
Proof. reflexivity. Qed.

Example scenario_states :
  OutputStates.get_states_by_trigger_type Samples.call_flow INCOMING_CALL =
  ([], Return [("A", "A"); ("B", "B"); ("C", "C")]).
Proof. by vm_compute. Qed.

Example scenario_diagram :
  Mermaid.generate_mermaid_graph ∅ Samples.loads_empty_object (Some "A")
    Samples.call_flow None =
  Return ["```mermaid"; "flowchart TD";
          "    A(A)"; "    A --> B";
          "    B{B}"; "    B --> |Yes| C";
          "    C(C)"; "    B --> |failed| A"; "    linkStyle 2 stroke:red";
          "```"].
Proof. by vm_compute. Qed.


(** * Further properties *)

(** ** Entry resolution and the state map *)

Lemma find_trigger_state_first before trigger after d :
  Forall (λ s, is_Some (st_type s) ∧ st_type s ≠ Some "trigger") before →
  st_type trigger = Some "trigger" →
  Utils.find_trigger_state (before ++ trigger :: after) d = Return trigger.
Proof.
  intros Hbefore Htrigger.
  induction Hbefore as [|p before [[ty Hty] Hne] _ IH]; simpl.
  - by rewrite Htrigger, bool_decide_eq_true_2.
  - rewrite Hty. rewrite bool_decide_eq_false_2 by congruence. exact IH.
Qed.

(** X1: entry resolution reads nothing after the first trigger state:
    whatever follows it, states without a type included, the result is
    the target found among that state's transitions. *)
Theorem get_first_state_stops_at_trigger flow_definition trigger_type
    before trigger after :
  fd_states flow_definition = Some (before ++ trigger :: after) →
  Forall (λ s, is_Some (st_type s) ∧ st_type s ≠ Some "trigger") before →
  st_type trigger = Some "trigger" →
  Utils.get_first_state flow_definition trigger_type =
  Return (Utils.find_first_state trigger_type (get_transitions trigger) None).
Proof.
  intros Hstates Hbefore Htrigger.
  unfold Utils.get_first_state, get_states. rewrite Hstates.
  unfold mbind, outcome_mbind, outcome_bind.
  by rewrite (find_trigger_state_first _ _ _ _ Hbefore Htrigger).
Qed.

Lemma get_first_state_stops_at_trigger_witness :
  Utils.get_first_state Cases.flow_with_stray_state INCOMING_CALL =
  Return (Some "A").
Proof.
  refine (get_first_state_stops_at_trigger Cases.flow_with_stray_state
            INCOMING_CALL [] _ _ eq_refl _ eq_refl).
  constructor.
Defined.

Lemma build_state_map_keeps states n :
  Forall (λ s, st_name s ≠ Some n) states →
  ∀ acc state_map,
    build_state_map states acc = Return state_map →
    state_map !! n = acc !! n.
Proof.
  induction 1 as [|s states Hs _ IH]; intros acc state_map; simpl.
  - by intros [= <-].
  - destruct (st_name s) as [name|]; [|done].
    intros Hrun. rewrite (IH _ _ Hrun).
    apply lookup_insert_ne. congruence.
Qed.

Lemma build_state_map_app before after :
  ∀ acc state_map,
    build_state_map (before ++ after) acc = Return state_map →
    ∃ middle, build_state_map before acc = Return middle ∧
              build_state_map after middle = Return state_map.
Proof.
  induction before as [|s before IH]; intros acc state_map; simpl.
  - intros Hrun. by exists acc.
  - destruct (st_name s) as [name|]; [|done]. apply IH.
Qed.

(** X2: in the state map a name stands for the last state of that name
    in the definition; earlier states of the same name are replaced. *)
Theorem state_map_keeps_last_definition before state after n acc state_map :
  build_state_map (before ++ state :: after) acc = Return state_map →
  st_name state = Some n →
  Forall (λ s, st_name s ≠ Some n) after →
  state_map !! n = Some state.
Proof.
  intros Hrun Hname Hafter.
  apply build_state_map_app in Hrun as (middle & _ & Hrun).
  simpl in Hrun. rewrite Hname in Hrun.
  rewrite (build_state_map_keeps _ _ Hafter _ _ Hrun).
  apply lookup_insert_eq.
Qed.

Lemma state_map_keeps_last_definition_witness :
  match build_state_map Cases.shadowed_states ∅ with
  | Return state_map =>
      get_transitions <$> state_map !! "A" = Some [Samples.transition "next" "B"]
  | _ => False
  end.
Proof.
  destruct (build_state_map Cases.shadowed_states ∅) as [m| |] eqn:Hrun;
    [|by vm_compute in Hrun..].
  rewrite (state_map_keeps_last_definition
             [Samples.state "A" "say-play" []; Samples.state "B" "say-play" []]
             (Samples.state "A" "say-play" [Samples.transition "next" "B"])
             [] "A" ∅ m Hrun eq_refl (Forall_nil_2 _)).
  reflexivity.
Defined.

Lemma build_state_map_nameless states :
  Exists (λ s, st_name s = None) states →
  ∀ acc, build_state_map states acc = Raise (KeyError "name").
Proof.
  induction 1 as [s states Hs|s states _ IH]; intros acc; simpl.
  - by rewrite Hs.
  - destruct (st_name s); [apply IH|done].
Qed.

(** ** State extraction *)

Lemma extraction_lists_reachable_witness :
  ∃ names,
    OutputStates.get_states_by_trigger_type Samples.call_flow INCOMING_CALL =
      ([], Return (self_map names)) ∧
    NoDup names ∧
    ∀ x, x ∈ names ↔ Dfs.reachable (succs_of Cases.call_state_map) "A" x.
Proof.
  refine (extraction_lists_reachable Samples.call_flow INCOMING_CALL
            Cases.call_states "A" Cases.call_state_map eq_refl eq_refl _ _).
  - done.
  - reflexivity.
Defined.

Lemma extraction_without_trigger flow_definition trigger_type states :
  fd_states flow_definition = Some states →
  Forall (λ s, is_Some (st_type s) ∧ st_type s ≠ Some "trigger") states →
  OutputStates.get_states_by_trigger_type flow_definition trigger_type =
    (["No states found for trigger type '" +:+ value trigger_type +:+ "'."],
     Return []).
Proof.
  intros Hstates Hnone. unfold OutputStates.get_states_by_trigger_type.
  rewrite Hstates. unfold Utils.get_first_state, get_states. rewrite Hstates.
  unfold mbind, outcome_mbind, outcome_bind.
  rewrite find_trigger_state_typed
    by (eapply Forall_impl; [exact Hnone|by intros s [? _]]).
  assert (List.find Utils.is_trigger states = None) as ->; [|done].
  clear Hstates. induction Hnone as [|s states [_ Hs] _ IH]; simpl; [done|].
  unfold Utils.is_trigger at 1. by rewrite bool_decide_eq_false_2.
Qed.



(** X5: the extraction checks for the states collection only: the
    [KeyError] of a state without a type that is met before the trigger,
    and, once an entry is found, that of a state without a name, reachable
    or not, leave it uncaught and nothing is printed. *)
Theorem extraction_raises_key_errors flow_definition trigger_type :
  (∀ before s after,
     fd_states flow_definition = Some (before ++ s :: after) →
     Forall (λ s, is_Some (st_type s) ∧ st_type s ≠ Some "trigger") before →
     st_type s = None →
     OutputStates.get_states_by_trigger_type flow_definition trigger_type =
       ([], Raise (KeyError "type"))) ∧
  (∀ states entry,
     fd_states flow_definition = Some states →
     Utils.get_first_state flow_definition trigger_type = Return (Some entry) →
     entry ≠ "" →
     Exists (λ s, st_name s = None) states →
     OutputStates.get_states_by_trigger_type flow_definition trigger_type =
       ([], Raise (KeyError "name"))).
Proof.
  unfold OutputStates.get_states_by_trigger_type. split.
  - intros before s after Hstates Hbefore Hs. rewrite Hstates.
    unfold Utils.get_first_state, get_states. rewrite Hstates.
    unfold mbind, outcome_mbind, outcome_bind.
    by rewrite (find_trigger_state_untyped _ _ _ _ Hbefore Hs).
  - intros states entry -> -> Hentry Hnameless. unfold truthy.
    rewrite (bool_decide_eq_false_2 _ Hentry).
    by rewrite (build_state_map_nameless _ Hnameless).
Qed.

Lemma extraction_raises_key_errors_witness :
  OutputStates.get_states_by_trigger_type Samples.untyped_flow INCOMING_CALL =
    ([], Raise (KeyError "type")) ∧
  OutputStates.get_states_by_trigger_type Cases.flow_with_stray_state
    INCOMING_CALL = ([], Raise (KeyError "name")).
Proof.
  split.
  - refine (proj1 (extraction_raises_key_errors Samples.untyped_flow
                     INCOMING_CALL) [] _ _ eq_refl _ eq_refl).
    constructor.
  - refine (proj2 (extraction_raises_key_errors Cases.flow_with_stray_state
                     INCOMING_CALL) _ "A" eq_refl eq_refl _ _); [done|].
    do 2 apply Exists_cons_tl. by apply Exists_cons_hd.
Defined.


(** ** The size of the rendered block *)

Section RenderSize.
Import Mermaid.

Variable state_map : gmap string State.
Variable friendly_states : gmap string string.

Abbreviation adds := (render_adds state_map).

Lemma emit_edge_size source t target w :
  truthy (tr_next t) = Some target →
  calls (emit_edge source t target w) = calls w ∧
  link_index (emit_edge source t target w) = (link_index w + 1)%Z ∧
  length (graph_parts (emit_edge source t target w)) =
    length (graph_parts w) + transition_lines t.
Proof.
  intros Htarget. unfold emit_edge, transition_lines. rewrite Htarget.
  destruct (tr_conditions t) as [[|c cs]|]; repeat case_bool_decide;
    simpl; rewrite ?length_app; simpl; repeat split; lia.
Qed.

Lemma total_app f (l k : list string) :
  total state_map f (l ++ k) = total state_map f l + total state_map f k.
Proof. unfold total. by rewrite sum_list_with_app. Qed.

Lemma render_transitions_size rec source :
  (∀ n w w', rec n w = Some w' → adds 0 0 w w') →
  ∀ ts w w', traverse_transitions rec source ts w = Some w' →
    adds (length (omap (λ t, truthy (tr_next t)) ts))
         (sum_list_with transition_lines ts) w w'.
Proof.
  intros Hrec ts. induction ts as [|t ts IH]; intros w w'.
  - intros [= <-]. exists []. simpl. rewrite app_nil_r.
    unfold total. simpl. repeat split; lia.
  - cbn [traverse_transitions omap list_omap sum_list_with].
    destruct (truthy (tr_next t)) as [n|] eqn:Hn.
    + destruct (rec n _) as [w1|] eqn:Hrun; [|done]. simpl.
      intros Hrest.
      destruct (emit_edge_size source t n w Hn) as (Hc0 & Hl0 & Hp0).
      destruct (Hrec _ _ _ Hrun) as (new1 & Hc1 & Hl1 & Hp1).
      destruct (IH _ _ Hrest) as (new2 & Hc2 & Hl2 & Hp2).
      exists (new1 ++ new2). rewrite !total_app, Hc2, Hc1, Hc0, Hl2, Hl1, Hl0.
      rewrite Hp2, Hp1, Hp0, app_assoc. simpl. repeat split; lia.
    + intros Hrest. destruct (IH _ _ Hrest) as (new & Hc & Hl & Hp).
      exists new. unfold transition_lines at 1. rewrite Hn.
      repeat split; [done|done|]. simpl. lia.
Qed.

Lemma render_state_size fuel :
  ∀ n w w', traverse_state state_map friendly_states fuel n w = Some w' →
    adds 0 0 w w'.
Proof.
  induction fuel as [|fuel IH]; intros n w w'; [done|].
  assert (adds 0 0 w w) as Hnil.
  { exists []. rewrite app_nil_r. unfold total. simpl. repeat split; lia. }
  cbn [traverse_state]. case_bool_decide as Hvis; [by intros [= <-]|].
  destruct (state_map !! n) as [state|] eqn:Hstate; [|by intros [= <-]].
  intros Hrun.
  destruct (render_transitions_size _ _ IH _ _ _ Hrun) as (new & Hc & Hl & Hp).
  exists (n :: new). unfold total in *. cbn [sum_list_with].
  rewrite Hstate. cbn [from_option].
  change (state_lines state)
    with (S (sum_list_with transition_lines (get_transitions state))).
  change (state_links state)
    with (length (omap (λ t, truthy (tr_next t)) (get_transitions state))).
  rewrite Hc, Hl, Hp. unfold emit_node.
  case_bool_decide; simpl; rewrite ?length_app, <- ?app_assoc; simpl;
    repeat split; try done; lia.
Qed.

End RenderSize.

(** X6: the rendered block is the two opening lines, the closing fence
    and, for each state that can be reached from the entry, one node line
    and the lines of its transitions: one for each transition with a
    target (also when the target is no state, or was visited before) and
    one more when the transition carries no condition and its event is
    "failed" or "timeout". *)
Theorem rendered_block_size files json_loads entry flow_definition states_file
    friendly_states states state_map :
  Mermaid.load_friendly_states files json_loads states_file = Return friendly_states →
  fd_states flow_definition = Some states →
  build_state_map states ∅ = Return state_map →
  ∃ names lines,
    Mermaid.generate_mermaid_graph files json_loads (Some entry)
      flow_definition states_file = Return lines ∧
    NoDup names ∧
    (∀ x, x ∈ names ↔ Dfs.reachable (succs_of state_map) entry x) ∧
    length lines = 3 + total state_map state_lines names.
Proof.
  intros Hload Hstates Hmap. unfold Mermaid.generate_mermaid_graph, get_states.
  rewrite Hload, Hstates. unfold mbind, outcome_mbind, outcome_bind.
  rewrite Hmap.
  destruct (render_from_empty state_map friendly_states entry
              ["```mermaid"; "flowchart TD"] (-1))
    as (w & Hw & Hnodup & Hreach & _).
  rewrite Hw.
  destruct (render_state_size _ _ _ _ _ _ Hw) as (new & Hc & _ & Hp).
  simpl in Hc, Hp. subst new.
  exists (Mermaid.calls w), (Mermaid.graph_parts (Mermaid.append "```" w)).
  split; [done|]. split; [done|]. split; [done|].
  simpl. rewrite length_app, Hp. simpl. lia.
Qed.

Lemma rendered_block_size_witness :
  ∃ names lines,
    Mermaid.generate_mermaid_graph ∅ Samples.loads_empty_object (Some "A")
      Samples.call_flow None = Return lines ∧
    NoDup names ∧
    (∀ x, x ∈ names ↔ Dfs.reachable (succs_of Cases.call_state_map) "A" x) ∧
    length lines = 3 + total Cases.call_state_map state_lines names.
Proof.
  by refine (rendered_block_size ∅ Samples.loads_empty_object "A"
               Samples.call_flow None ∅ Cases.call_states Cases.call_state_map
               eq_refl eq_refl _).
Defined.

(** ** Friendly names *)

Section RenderLabels.
Import Mermaid.

Variable state_map : gmap string State.
Variables friendly other : gmap string string.
Hypothesis same_labels :
  ∀ n, is_Some (state_map !! n) →
       default n (friendly !! n) = default n (other !! n).

Lemma render_transitions_labels rec rec' source :
  (∀ n w, rec n w = rec' n w) →
  ∀ ts w, traverse_transitions rec source ts w =
          traverse_transitions rec' source ts w.
Proof.
  intros Hrec ts. induction ts as [|t ts IH]; intros w; simpl; [done|].
  destruct (truthy (tr_next t)) as [n|]; [|apply IH].
  rewrite Hrec. destruct (rec' n _); simpl; [apply IH|done].
Qed.

Lemma render_state_labels fuel :
  ∀ n w, traverse_state state_map friendly fuel n w =
         traverse_state state_map other fuel n w.
Proof.
  induction fuel as [|fuel IH]; intros n w; simpl; [done|].
  case_bool_decide; [done|].
  destruct (state_map !! n) as [state|] eqn:Hstate; [|done].
  unfold emit_node. rewrite same_labels by (by rewrite Hstate).
  by apply render_transitions_labels.
Qed.

End RenderLabels.

Lemma build_state_map_names states :
  ∀ acc state_map,
    build_state_map states acc = Return state_map →
    ∀ n, is_Some (state_map !! n) →
         is_Some (acc !! n) ∨ Some n ∈ st_name <$> states.
Proof.
  induction states as [|s states IH]; intros acc state_map;
    cbn [build_state_map].
  - intros [= <-] n Hn. by left.
  - destruct (st_name s) as [name|] eqn:Hname; [|done].
    intros Hrun n Hn. rewrite fmap_cons, elem_of_cons, Hname.
    destruct (IH _ _ Hrun n Hn) as [Hacc|Hin]; [|auto].
    apply lookup_insert_is_Some in Hacc as [->|[_ Hacc]]; auto.
Qed.

(** X7: the friendly names enter the diagram only as the labels of the
    states of the definition: two sources that give every state of the
    definition the same label (its own name when it has no entry) give the
    same rendering, whatever else they hold. *)
Theorem rendering_depends_on_labels files json_loads states_file friendly
    files' json_loads' states_file' other initial_state flow_definition states :
  Mermaid.load_friendly_states files json_loads states_file = Return friendly →
  Mermaid.load_friendly_states files' json_loads' states_file' = Return other →
  fd_states flow_definition = Some states →
  (∀ n, Some n ∈ st_name <$> states →
        default n (friendly !! n) = default n (other !! n)) →
  Mermaid.generate_mermaid_graph files json_loads initial_state
    flow_definition states_file =
  Mermaid.generate_mermaid_graph files' json_loads' initial_state
    flow_definition states_file'.
Proof.
  intros Hload Hload' Hstates Hsame.
  unfold Mermaid.generate_mermaid_graph, get_states.
  rewrite Hload, Hload', Hstates. unfold mbind, outcome_mbind, outcome_bind.
  destruct (build_state_map states ∅) as [state_map| |] eqn:Hmap; [|done..].
  destruct initial_state as [entry|]; [|done].
  rewrite (render_state_labels state_map friendly other); [done|].
  intros n Hn. apply Hsame.
  destruct (build_state_map_names _ _ _ Hmap n Hn) as [Hempty|Hin]; [|done].
  rewrite lookup_empty in Hempty. by destruct Hempty.
Qed.

Lemma rendering_depends_on_labels_witness :
  Mermaid.generate_mermaid_graph Cases.states_files Cases.loads_states_file
    (Some "A") Samples.call_flow (Some "states.json") =
  Mermaid.generate_mermaid_graph ∅ Samples.loads_empty_object
    (Some "A") Samples.call_flow None.
Proof.
  refine (rendering_depends_on_labels Cases.states_files Cases.loads_states_file
            (Some "states.json") {[ "A" := "A" ]}
            ∅ Samples.loads_empty_object None ∅
            (Some "A") Samples.call_flow Cases.call_states
            eq_refl eq_refl eq_refl _).
  intros n _. rewrite lookup_empty. simpl.
  destruct (decide (n = "A")) as [->|Hne].
  - by rewrite lookup_singleton_eq.
  - by rewrite lookup_singleton_ne.
Defined.

(** ** Errors of the renderer *)

(** X8: the renderer raises [FileNotFoundError] when the friendly-name
    file does not exist, and [KeyError] when a state of the definition has
    no name, be it reachable from the entry or not; nothing is rendered. *)
Theorem renderer_raises_on_missing_file_or_name files json_loads initial_state
    flow_definition states_file :
  (∀ path,
     truthy states_file = Some path → files !! path = None →
     Mermaid.generate_mermaid_graph files json_loads initial_state
       flow_definition states_file = Raise (FileNotFoundError path)) ∧
  (∀ friendly_states states,
     Mermaid.load_friendly_states files json_loads states_file =
       Return friendly_states →
     fd_states flow_definition = Some states →
     Exists (λ s, st_name s = None) states →
     Mermaid.generate_mermaid_graph files json_loads initial_state
       flow_definition states_file = Raise (KeyError "name")).
Proof.
  unfold Mermaid.generate_mermaid_graph. split.
  - intros path Hpath Hfile. unfold Mermaid.load_friendly_states.
    by rewrite Hpath, Hfile.
  - intros friendly_states states -> Hstates Hnameless.
    unfold get_states. rewrite Hstates.
    unfold mbind, outcome_mbind, outcome_bind.
    by rewrite (build_state_map_nameless _ Hnameless).
Qed.

Lemma renderer_raises_on_missing_file_or_name_witness :
  Mermaid.generate_mermaid_graph ∅ Samples.loads_empty_object (Some "A")
    Samples.call_flow (Some "names.json") =
    Raise (FileNotFoundError "names.json") ∧
  Mermaid.generate_mermaid_graph ∅ Samples.loads_empty_object (Some "A")
    Cases.flow_with_stray_state None = Raise (KeyError "name").
Proof.
  split.
  - by refine (proj1 (renderer_raises_on_missing_file_or_name ∅
                        Samples.loads_empty_object (Some "A") Samples.call_flow
                        (Some "names.json")) "names.json" eq_refl _).
  - refine (proj2 (renderer_raises_on_missing_file_or_name ∅
                     Samples.loads_empty_object (Some "A")
                     Cases.flow_with_stray_state None) ∅ _ eq_refl eq_refl _).
    do 2 apply Exists_cons_tl. by apply Exists_cons_hd.
Defined.

(** ** Running the section update again *)





(** X10: however the section update ends, it creates no file, removes
    none, and leaves the text of every other file as it was. *)
Theorem update_touches_one_file subx linesep (files : gmap string Re.text)
    filename new_graph section_identifier :
  let files' :=
    (UpdateDoc.update_mermaid_graph subx linesep files filename new_graph
       section_identifier).1.1 in
  dom files' = dom files ∧
  ∀ other, other ≠ filename → files' !! other = files !! other.
Proof.
  unfold UpdateDoc.update_mermaid_graph.
  destruct (files !! filename) as [stored|] eqn:Hfile; [|done].
  cbn zeta. destruct (Re.sub subx _ _ _) as [updated| |]; [|done..].
  cbn [fst]. split.
  - apply elem_of_dom_2 in Hfile. rewrite dom_insert_L. set_solver.
  - intros other Hother. by apply lookup_insert_ne.
Qed.

(** ** The command line *)

(** X11: a token is converted to a trigger type, or to a command, exactly
    when its upper-case form is the name of the member.  So the value of
    every command is a token for it, while the external value of a trigger
    type ("incomingCall", ...) is refused. *)
Theorem tokens_are_member_names :
  (∀ s t, Index.str_to_trigger_type s = Index.Converted t ↔
          Index.upper s = Index.name t) ∧
  (∀ t, Index.str_to_trigger_type (value t) =
        Index.ArgumentTypeError
          ("Invalid value: '" +:+ value t +:+ "' is not a valid trigger type.")) ∧
  (∀ s c, Index.str_to_command s = Index.Converted c ↔
          Index.upper s = Index.command_name c) ∧
  (∀ c, Index.str_to_command (Index.command_value c) = Index.Converted c).
Proof.
  split; [|split; [|split]].
  - intros s t. unfold Index.str_to_trigger_type, Index.trigger_type_named.
    simpl. repeat case_bool_decide; destruct t; simpl in *;
      split; intros Heq; congruence.
  - by intros [].
  - intros s c. unfold Index.str_to_command, Index.command_named.
    simpl. repeat case_bool_decide; destruct c; simpl in *;
      split; intros Heq; congruence.
  - by intros [].
Qed.

(** ** The two commands *)

Lemma documents_round_trip (files : gmap string string) :
  string_of_list_ascii <$> (UpdateDoc.lit <$> files) = files.
Proof.
  rewrite <- map_fmap_compose. rewrite <- (map_fmap_id files) at 2.
  apply map_fmap_ext. intros i x _. apply string_of_list_ascii_of_string.
Qed.

Lemma update_graph_run json_loads subx linesep args
    (files : gmap string string) flow_definition first_state lines document :
  Index.section_identifier args ≠ "" →
  Index.output_file args ≠ "" →
  Utils.get_first_state flow_definition (Index.trigger_type args) =
    Return first_state →
  Mermaid.generate_mermaid_graph files json_loads first_state flow_definition
    (Some (Index.flow_state_file args)) = Return lines →
  files !! Index.output_file args = Some document →
  Re.backslash ∉ UpdateDoc.lit (Index.join_lines lines) →
  Re.backslash ∉ UpdateDoc.lit (Index.section_identifier args) →
  ∃ updated,
    Index.update_graph json_loads subx linesep args files (Some flow_definition) =
      (<[Index.output_file args :=
           string_of_list_ascii (UpdateDoc.write_newlines linesep updated)]> files,
       [Index.join_lines lines], Index.Returned) ∧
    UpdateDoc.replaced
      (UpdateDoc.start_tag (UpdateDoc.lit (Index.section_identifier args)))
      (UpdateDoc.end_tag (UpdateDoc.lit (Index.section_identifier args)))
      (UpdateDoc.replacement (UpdateDoc.lit (Index.join_lines lines))
         (UpdateDoc.lit (Index.section_identifier args)))
      (UpdateDoc.universal_newlines (UpdateDoc.lit document)) updated.
Proof.
  intros Hid Hout Hfirst Hrender Hfile Hg Hs. unfold Index.update_graph.
  rewrite bool_decide_eq_false_2 by tauto. rewrite Hfirst, Hrender.
  destruct (update_with_literal subx linesep (UpdateDoc.lit <$> files)
              (Index.output_file args) (UpdateDoc.lit (Index.join_lines lines))
              (UpdateDoc.lit (Index.section_identifier args))
              (UpdateDoc.lit document) Hg Hs) as (out & -> & Hrep).
  { by rewrite lookup_fmap, Hfile. }
  exists out. split; [|done].
  by rewrite fmap_insert, documents_round_trip.
Qed.

(** X12: the command update_graph, given both options, a flow that is
    fetched, an entry that resolves, a rendering that returns and a
    document that exists: it prints the flow's details and the rendering
    joined by newlines, and writes the document, as read in text mode and
    with the marked sections holding that text (no backslash in it or in
    the tag), with the platform's line separator; no other file changes. *)
Theorem update_graph_splices_rendering fetch json_loads json_dumps subx linesep
    args (files : gmap string string) flow first_state lines document :
  Index.cmd args = Index.UPDATE_GRAPH →
  Index.section_identifier args ≠ "" →
  Index.output_file args ≠ "" →
  fetch (Index.flow_sid args) = inr flow →
  Utils.get_first_state (Index.definition flow) (Index.trigger_type args) =
    Return first_state →
  Mermaid.generate_mermaid_graph files json_loads first_state
    (Index.definition flow) (Some (Index.flow_state_file args)) = Return lines →
  files !! Index.output_file args = Some document →
  Re.backslash ∉ UpdateDoc.lit (Index.join_lines lines) →
  Re.backslash ∉ UpdateDoc.lit (Index.section_identifier args) →
  ∃ updated,
    Index.main fetch json_loads json_dumps subx linesep args files =
      (<[Index.output_file args :=
           string_of_list_ascii (UpdateDoc.write_newlines linesep updated)]> files,
       ["Flow SID: " +:+ Index.sid flow;
        "Flow Friendly Name: " +:+ Index.friendly_name flow;
        "Flow Status: " +:+ Index.status flow;
        "Flow Date Created: " +:+ Index.date_created flow;
        Index.join_lines lines],
       Index.Returned) ∧
    UpdateDoc.replaced
      (UpdateDoc.start_tag (UpdateDoc.lit (Index.section_identifier args)))
      (UpdateDoc.end_tag (UpdateDoc.lit (Index.section_identifier args)))
      (UpdateDoc.replacement (UpdateDoc.lit (Index.join_lines lines))
         (UpdateDoc.lit (Index.section_identifier args)))
      (UpdateDoc.universal_newlines (UpdateDoc.lit document)) updated.
Proof.
  intros Hcmd Hid Hout Hfetch Hfirst Hrender Hfile Hg Hs.
  destruct (update_graph_run json_loads subx linesep args files
              (Index.definition flow)
              first_state lines document Hid Hout Hfirst Hrender Hfile Hg Hs)
    as (updated & Hrun & Hrep).
  exists updated. split; [|done].
  unfold Index.main, Index.load_twilio_flow. by rewrite Hfetch, Hcmd, Hrun.
Qed.

Lemma update_graph_splices_rendering_witness :
  ∃ updated,
    Index.main Cases.fetch_sample Samples.loads_empty_object Cases.dumps_sample
      Cases.refuses [UpdateDoc.newline]
      (Cases.update_args INCOMING_CALL "FW1") Cases.project_files =
      (<["README.md" :=
           string_of_list_ascii
             (UpdateDoc.write_newlines [UpdateDoc.newline] updated)]>
         Cases.project_files,
       ["Flow SID: FW1"; "Flow Friendly Name: Calls"; "Flow Status: published";
        "Flow Date Created: 2024-01-01";
        Index.join_lines
          ["```mermaid"; "flowchart TD"; "    A(A)"; "    A --> B"; "    B{B}";
           "    B --> |Yes| C"; "    C(C)"; "    B --> |failed| A";
           "    linkStyle 2 stroke:red"; "```"]],
       Index.Returned) ∧
    UpdateDoc.replaced
      (UpdateDoc.start_tag (UpdateDoc.lit "d"))
      (UpdateDoc.end_tag (UpdateDoc.lit "d"))
      (UpdateDoc.replacement
         (UpdateDoc.lit
            (Index.join_lines
               ["```mermaid"; "flowchart TD"; "    A(A)"; "    A --> B";
                "    B{B}"; "    B --> |Yes| C"; "    C(C)";
                "    B --> |failed| A"; "    linkStyle 2 stroke:red"; "```"]))
         (UpdateDoc.lit "d"))
      (UpdateDoc.universal_newlines
         (UpdateDoc.lit "Calls <!-- d-start -->old<!-- d-end --> end"))
      updated.
Proof.
  refine (update_graph_splices_rendering Cases.fetch_sample
            Samples.loads_empty_object Cases.dumps_sample Cases.refuses
            [UpdateDoc.newline]
            (Cases.update_args INCOMING_CALL "FW1") Cases.project_files
            Cases.fetched_flow (Some "A") _ _
            eq_refl _ _ eq_refl eq_refl _ _ _ _).
  - done.
  - done.
  - by vm_compute.
  - by vm_compute.
  - by apply no_backslash_check.
  - by apply no_backslash_check.
Defined.



(** X14: generate_states_file writes the states file also when the
    extraction finds nothing: for a flow whose states carry a type and none
    is a trigger, the file is created or overwritten with the dump of the
    empty dictionary, after the message that no states were found. *)
Theorem generate_states_file_writes_empty fetch json_loads json_dumps subx
    linesep args
    (files : gmap string string) flow states :
  Index.cmd args = Index.GENERATE_STATES_FILE →
  Index.flow_state_file args ≠ "" →
  fetch (Index.flow_sid args) = inr flow →
  fd_states (Index.definition flow) = Some states →
  Forall (λ s, is_Some (st_type s) ∧ st_type s ≠ Some "trigger") states →
  Index.main fetch json_loads json_dumps subx linesep args files =
    (<[Index.flow_state_file args := json_dumps []]> files,
     ["Flow SID: " +:+ Index.sid flow;
      "Flow Friendly Name: " +:+ Index.friendly_name flow;
      "Flow Status: " +:+ Index.status flow;
      "Flow Date Created: " +:+ Index.date_created flow;
      "No states found for trigger type '"
        +:+ value (Index.trigger_type args) +:+ "'.";
      "Output written to " +:+ Index.flow_state_file args +:+ "."],
     Index.Returned).
Proof.
  intros Hcmd Hfile Hfetch Hstates Hnone.
  unfold Index.main, Index.load_twilio_flow, Index.generate_states_file.
  rewrite Hfetch, Hcmd, (bool_decide_eq_false_2 _ Hfile).
  by rewrite (extraction_without_trigger _ _ _ Hstates Hnone).
Qed.

Lemma generate_states_file_writes_empty_witness :
  Index.main Cases.fetch_sample Samples.loads_empty_object Cases.dumps_sample
    (λ _, None) [UpdateDoc.newline] (Cases.states_args "FW2" "states.json") Cases.project_files =
  (<["states.json" := "{}"]> Cases.project_files,
   ["Flow SID: FW2"; "Flow Friendly Name: Draft"; "Flow Status: draft";
    "Flow Date Created: 2024-02-02";
    "No states found for trigger type 'incomingCall'.";
    "Output written to states.json."],
   Index.Returned).
Proof.
  refine (generate_states_file_writes_empty Cases.fetch_sample
            Samples.loads_empty_object Cases.dumps_sample (λ _, None)
            [UpdateDoc.newline]
            (Cases.states_args "FW2" "states.json") Cases.project_files
            Cases.fetched_flow_without_trigger _ eq_refl _ eq_refl eq_refl _).
  - done.
  - repeat (constructor; [split; [by eexists|done]|]). constructor.
Defined.

(** X15: a command stops before any file is written when a required
    option is empty ([Exception], after the flow was fetched) and, with the
    options given, when the flow cannot be fetched: the error is printed
    by the loader and the command then raises [TypeError]. *)
Theorem commands_stop_without_writing fetch json_loads json_dumps subx linesep
    args
    (files : gmap string string) :
  ((Index.cmd args = Index.GENERATE_STATES_FILE ∧ Index.flow_state_file args = "") ∨
   (Index.cmd args = Index.UPDATE_GRAPH ∧
    (Index.section_identifier args = "" ∨ Index.output_file args = "")) →
   ∃ message,
     Index.main fetch json_loads json_dumps subx linesep args files =
       (files, (Index.load_twilio_flow fetch (Index.flow_sid args)).1,
        Index.Stopped (Index.PlainException message))) ∧
  (∀ e,
     fetch (Index.flow_sid args) = inl e →
     (Index.cmd args = Index.GENERATE_STATES_FILE →
      Index.flow_state_file args ≠ "") →
     (Index.cmd args = Index.UPDATE_GRAPH →
      Index.section_identifier args ≠ "" ∧ Index.output_file args ≠ "") →
     Index.main fetch json_loads json_dumps subx linesep args files =
       (files, ["Error loading flow: " +:+ e], Index.Stopped Index.TypeError)).
Proof.
  unfold Index.main, Index.generate_states_file, Index.update_graph. split.
  - intros [[-> Hfile]|[-> Hopts]];
      destruct (Index.load_twilio_flow fetch _) as [loaded flow_definition].
    + rewrite (bool_decide_eq_true_2 _ Hfile). eexists. by rewrite app_nil_r.
    + rewrite (bool_decide_eq_true_2 _ Hopts). eexists. by rewrite app_nil_r.
  - intros e Hfetch Hstates Hupdate. unfold Index.load_twilio_flow.
    rewrite Hfetch. destruct (Index.cmd args).
    + by rewrite (bool_decide_eq_false_2 _ (Hstates eq_refl)).
    + rewrite bool_decide_eq_false_2; [done|].
      destruct (Hupdate eq_refl). tauto.
Qed.

Lemma commands_stop_without_writing_witness :
  (∃ message,
     Index.main Cases.fetch_sample Samples.loads_empty_object Cases.dumps_sample
       (λ _, None) [UpdateDoc.newline] (Cases.states_args "FW1" "") Cases.project_files =
     (Cases.project_files,
      (Index.load_twilio_flow Cases.fetch_sample "FW1").1,
      Index.Stopped (Index.PlainException message))) ∧
  Index.main Cases.fetch_sample Samples.loads_empty_object Cases.dumps_sample
    (λ _, None) [UpdateDoc.newline] (Cases.update_args INCOMING_CALL "FW9") Cases.project_files =
  (Cases.project_files, ["Error loading flow: HTTP 404"],
   Index.Stopped Index.TypeError).
Proof.
  split.
  - refine (proj1 (commands_stop_without_writing Cases.fetch_sample
                     Samples.loads_empty_object Cases.dumps_sample (λ _, None)
                     [UpdateDoc.newline]
                     (Cases.states_args "FW1" "") Cases.project_files) _).
    by left.
  - refine (proj2 (commands_stop_without_writing Cases.fetch_sample
                     Samples.loads_empty_object Cases.dumps_sample (λ _, None)
                     [UpdateDoc.newline]
                     (Cases.update_args INCOMING_CALL "FW9") Cases.project_files)
              "HTTP 404" eq_refl _ _); done.
Defined.


(** ** Every reachable state is drawn *)

Section RenderDraws.
Import Mermaid.

Variable state_map : gmap string State.
Variable friendly_states : gmap string string.

Abbreviation draws := (render_draws state_map friendly_states).

Lemma render_draws_nil w : draws [] w w.
Proof.
  exists [], []. rewrite !app_nil_r. split; [done|]. split; [done|]. split.
  - by intros l Hl.
  - intros n state l Hn. by apply elem_of_nil in Hn.
Qed.

Lemma emit_edge_draws source t target w :
  calls (emit_edge source t target w) = calls w ∧
  ∃ rest, graph_parts (emit_edge source t target w) =
          graph_parts w ++ edge_line source t target :: rest.
Proof.
  unfold emit_edge, edge_line, labelled_edge, plain_edge.
  destruct (tr_conditions t) as [[|c cs]|]; repeat case_bool_decide;
    try (exfalso; congruence); simpl; rewrite <- ?app_assoc; eauto.
Qed.

Lemma render_transitions_draws rec source :
  (∀ n w w', rec n w = Some w' → draws [] w w') →
  ∀ ts w w', traverse_transitions rec source ts w = Some w' →
    draws (transition_drawing source ts) w w'.
Proof.
  intros Hrec ts. induction ts as [|t ts IH]; intros w w'.
  - intros [= <-]. apply render_draws_nil.
  - cbn [traverse_transitions]. unfold transition_drawing.
    cbn [omap list_omap].
    destruct (truthy (tr_next t)) as [n|] eqn:Hn; cbn [fmap option_fmap option_map].
    + destruct (rec n _) as [w1|] eqn:Hrun; [|done]. simpl.
      intros Hrest.
      destruct (emit_edge_draws source t n w) as (Hc0 & extra & Hp0).
      destruct (Hrec _ _ _ Hrun) as (new1 & added1 & Hc1 & Hp1 & _ & Hd1).
      destruct (IH _ _ Hrest) as (new2 & added2 & Hc2 & Hp2 & Ho2 & Hd2).
      exists (new1 ++ new2), ((edge_line source t n :: extra) ++ added1 ++ added2).
      rewrite Hc2, Hc1, Hc0, Hp2, Hp1, Hp0, <- !app_assoc.
      split; [done|]. split; [done|]. split.
      * intros l [->|Hl]%elem_of_cons; [set_solver|].
        apply Ho2 in Hl. set_solver.
      * intros m state l [Hm|Hm]%elem_of_app Hstate Hl.
        -- pose proof (Hd1 m state l Hm Hstate Hl). set_solver.
        -- pose proof (Hd2 m state l Hm Hstate Hl). set_solver.
    + apply IH.
Qed.

Lemma render_state_draws fuel :
  ∀ n w w', traverse_state state_map friendly_states fuel n w = Some w' →
    draws [] w w'.
Proof.
  induction fuel as [|fuel IH]; intros n w w'; [done|].
  pose proof (render_draws_nil w) as Hnil.
  cbn [traverse_state]. case_bool_decide as Hvis; [by intros [= <-]|].
  destruct (state_map !! n) as [state|] eqn:Hstate; [|by intros [= <-]].
  intros Hrun.
  destruct (render_transitions_draws _ _ IH _ _ _ Hrun)
    as (new & added & Hc & Hp & Ho & Hd).
  exists (n :: new), (node_line friendly_states n state :: added).
  assert (graph_parts (emit_node friendly_states n state (mark n w)) =
          graph_parts w ++ [node_line friendly_states n state]) as Hnode.
  { unfold emit_node, node_line. by case_bool_decide. }
  assert (calls (emit_node friendly_states n state (mark n w)) =
          calls w ++ [n]) as Hcall.
  { unfold emit_node. by case_bool_decide. }
  rewrite Hc, Hp, Hnode, Hcall, <- !app_assoc.
  split; [done|]. split; [done|]. split.
  - intros l Hl. by apply elem_of_nil in Hl.
  - intros m state' l [->|Hm]%elem_of_cons Hstate' Hl.
    + rewrite Hstate in Hstate'. injection Hstate' as <-.
      unfold state_drawing in Hl. apply elem_of_cons in Hl as [->|Hl].
      * apply elem_of_cons. by left.
      * apply elem_of_cons. right. by apply Ho.
    + apply elem_of_cons. right. by apply (Hd m state').
Qed.

End RenderDraws.

(** X16: the rendering leaves nothing out: for every state that can be
    reached from the entry, its node line (braces for a split, else
    parentheses, labelled with the friendly name or else the name) and the
    edge line of each of its transitions that has a target are lines of
    the rendered block. *)
Theorem rendering_draws_reachable_states files json_loads entry
    flow_definition states_file friendly_states states state_map :
  Mermaid.load_friendly_states files json_loads states_file = Return friendly_states →
  fd_states flow_definition = Some states →
  build_state_map states ∅ = Return state_map →
  ∃ lines,
    Mermaid.generate_mermaid_graph files json_loads (Some entry)
      flow_definition states_file = Return lines ∧
    ∀ x state l,
      Dfs.reachable (succs_of state_map) entry x →
      state_map !! x = Some state →
      l ∈ state_drawing friendly_states x state →
      l ∈ lines.
Proof.
  intros Hload Hstates Hmap. unfold Mermaid.generate_mermaid_graph, get_states.
  rewrite Hload, Hstates. unfold mbind, outcome_mbind, outcome_bind.
  rewrite Hmap.
  destruct (render_from_empty state_map friendly_states entry
              ["```mermaid"; "flowchart TD"] (-1))
    as (w & Hw & _ & Hreach & _).
  rewrite Hw.
  destruct (render_state_draws _ _ _ _ _ _ Hw)
    as (new & added & Hc & Hp & _ & Hd).
  simpl in Hc, Hp. subst new. eexists. split; [done|].
  intros x state l Hx Hstate Hl. simpl. rewrite Hp.
  apply Hreach in Hx. pose proof (Hd x state l Hx Hstate Hl). set_solver.
Qed.

Lemma rendering_draws_reachable_states_witness :
  ∃ lines,
    Mermaid.generate_mermaid_graph ∅ Samples.loads_empty_object (Some "A")
      Samples.call_flow None = Return lines ∧
    ∀ x state l,
      Dfs.reachable (succs_of Cases.call_state_map) "A" x →
      Cases.call_state_map !! x = Some state →
      l ∈ state_drawing ∅ x state →
      l ∈ lines.
Proof.
  by refine (rendering_draws_reachable_states ∅ Samples.loads_empty_object "A"
               Samples.call_flow None ∅ Cases.call_states Cases.call_state_map
               eq_refl eq_refl _).
Defined.
